(** * Monitors in a multi-threaded printing demo: a model of [main.cpp]

    The program prints two texts three times: on one thread, on two threads
    without coordination ([raceTest]) and on two threads coordinated by a
    monitor, that is a mutex paired with a condition variable
    ([monitorTest]).  This development embeds

    - [readFile] over a model of [std::ifstream] / [std::getline];
    - [displayTextSlowly] as the sequence of operations it performs;
    - the two threaded demos as programs of a small instruction set, run by
      an interleaving semantics with one boolean flag, one mutex and one
      condition variable per demo.

    Platform assumptions (LP64): [std::size_t] is an unsigned 64-bit integer
    and [std::chrono::milliseconds::rep] is a signed 64-bit integer.  Memory
    is sequentially consistent: every access to the flag is one atomic step
    of the interleaving. *)

From Stdlib Require Import List ZArith Lia Bool Ascii String PeanoNat.
Import ListNotations.

Open Scope Z_scope.

#[local] Set Warnings "-register-all".

(** ** Texts *)

(** A [std::string] is the list of its characters. *)
Definition text := list ascii.

(** The character ['\n']. *)
Definition nl : ascii := Ascii.ascii_of_nat 10.

(** A string literal of the source that ends in ["\n"]. *)
Definition line_lit (s : string) : text := list_ascii_of_string s ++ [nl].

(** ** [std::ifstream] and [std::getline] *)

(** The part of an input file stream that [readFile] observes: the characters
    not yet extracted and two of the state bits ([badbit] is never set, no
    device error is modelled). *)
Record ifstream := mkStream {
  rdbuf : text;
  eofbit : bool;
  failbit : bool
}.

(** [is.good()]: no state bit is set. *)
Definition good (ins : ifstream) : bool := negb (eofbit ins) && negb (failbit ins).

(** [static_cast<bool>(is)], which is [!is.fail()]: [eofbit] alone leaves the
    stream true. *)
Definition stream_ok (ins : ifstream) : bool := negb (failbit ins).

(** [std::ifstream inputStream(fileName)]: a file that cannot be opened
    ([None]) leaves the stream with [failbit] set. *)
Definition open (file : option text) : ifstream :=
  match file with
  | Some content => mkStream content false false
  | None => mkStream [] false true
  end.

(** Extraction up to the delimiter: the characters before the first ['\n'],
    and the rest of the buffer after that ['\n'] ([None] when the end of the
    file came first). *)
Fixpoint extract_line (b : text) : text * option text :=
  match b with
  | [] => ([], None)
  | c :: r =>
      if Ascii.eqb c nl then ([], Some r)
      else let '(l, rest) := extract_line r in (c :: l, rest)
  end.

(** [std::getline(is, line)].  The sentry fails on a stream that is not
    [good()]: it sets [failbit] and [line] keeps its old value.  Otherwise
    [line] is erased and filled up to the delimiter, which is extracted and
    dropped; reaching the end of the file sets [eofbit], and [failbit] too
    when nothing at all was extracted. *)
Definition getline (ins : ifstream) (line : text) : ifstream * text :=
  if good ins then
    match extract_line (rdbuf ins) with
    | (l, Some rest) => (mkStream rest false false, l)
    | (l, None) =>
        (mkStream [] true (match l with [] => true | _ :: _ => false end), l)
    end
  else (mkStream (rdbuf ins) (eofbit ins) true, line).

(** The loop of [readFile]:
    [while (inputStream) { std::getline(inputStream, line); data += line + '\n'; }]
    The stream is tested before each read, not after it.  [None] means the
    fuel ran out. *)
Fixpoint read_loop (fuel : nat) (ins : ifstream) (data line : text)
  : option text :=
  if stream_ok ins then
    match fuel with
    | O => None
    | S f =>
        let '(ins', line') := getline ins line in
        read_loop f ins' (data ++ line' ++ [nl]) line'
    end
  else Some data.

(** How a call of [readFile] ends: it returns the data, or the process exits
    with a status after writing to [std::cerr]. *)
Inductive outcome :=
| Returned (data : text)
| Exited (status : Z) (cerr : text).

Definition open_error : text :=
  line_lit "Fatal Error: Could not open input file".

(** [readFile(fileName)] over a file system [fs] that maps a name to the
    content of the file, [None] for a file that cannot be opened. *)
Definition readFile (fs : string -> option text) (fileName : string)
  : option outcome :=
  let inputStream := open (fs fileName) in
  if stream_ok inputStream then
    match read_loop (2 + List.length (rdbuf inputStream)) inputStream [] [] with
    | Some data => Some (Returned data)
    | None => None
    end
  else Some (Exited 1 open_error).

(** The spec's reading of [readFile] on a file that opens: the content, with
    one ['\n'] appended when the content does not already end in one. *)
Definition ends_with_nl (content : text) : bool :=
  match rev content with
  | c :: _ => Ascii.eqb c nl
  | [] => false
  end.

Definition load_spec (content : text) : text :=
  if ends_with_nl content then content else content ++ [nl].

(** What the loop of [readFile] accumulates, in closed form: the content up
    to and including its last ['\n'], then for the final unterminated line
    [cur] either a lone ['\n'] (when it is empty) or that line twice, each
    time followed by ['\n']. *)
Fixpoint accumulated (cur b : text) : text :=
  match b with
  | [] =>
      match cur with
      | [] => [nl]
      | _ :: _ => cur ++ [nl] ++ cur ++ [nl]
      end
  | c :: r =>
      if Ascii.eqb c nl then cur ++ [nl] ++ accumulated [] r
      else accumulated (cur ++ [c]) r
  end.

Definition txt (s : string) : text := list_ascii_of_string s.

Definition one_file (name : string) (content : text) : string -> option text :=
  fun n => if String.eqb n name then Some content else None.

(** ** Threads, instructions and the monitor *)

(** The threads of one demo: the orchestrating thread that runs the demo
    function, and the two threads it creates, in the order of creation. *)
Inductive tid := Main | TA | TB.

Definition tid_eqb (a b : tid) : bool :=
  match a, b with
  | Main, Main | TA, TA | TB, TB => true
  | _, _ => false
  end.

(** The operations a thread of the demos performs.  A demo has one flag, one
    mutex and one condition variable, so the instructions name none.
    - [Putchar c]: one character written to the standard output;
    - [SleepFor d]: [std::this_thread::sleep_for] of [d] milliseconds;
    - [SetFlag b]: the assignment [flag = b];
    - [NotifyAll]: [cv.notify_all()];
    - [Lock]: [std::unique_lock<std::mutex> lock(m)];
    - [WaitLoop]: [while (!flag) { cv.wait(lock, [](){ return flag; }); }];
    - [Unlock]: [lock.unlock()];
    - [Spawn t body]: [std::thread(body).detach()], the new thread being [t]
      (an identifier names one thread only: the step is not enabled when
      [t] exists already). *)
Inductive instr :=
| Putchar (c : ascii)
| SleepFor (d : Z)
| SetFlag (b : bool)
| NotifyAll
| Lock
| WaitLoop
| Unlock
| Spawn (t : tid) (body : list instr).

(** [std::cout << s]: the characters of [s] in order.  The stream gives no
    atomicity across threads, so each character is a step of its own. *)
Definition cout (s : text) : list instr := map Putchar s.

(** [displayTextSlowly(text, delay)]: for each character, [std::putchar] and
    then [sleep_for(delay)]. *)
Definition displayTextSlowly (text : text) (delay : Z) : list instr :=
  flat_map (fun c => [Putchar c; SleepFor delay]) text.

(** The spec's reading of [display]: the delay lies between successive
    characters, so none follows the last one. *)
Fixpoint display_spec (text : text) (delay : Z) : list instr :=
  match text with
  | [] => []
  | [c] => [Putchar c]
  | c :: r => Putchar c :: SleepFor delay :: display_spec r delay
  end.

(** The characters a piece of code writes, and the sleeps it takes. *)
Definition chars (code : list instr) : text :=
  flat_map (fun i => match i with Putchar c => [c] | _ => [] end) code.

Definition sleeps (code : list instr) : list Z :=
  flat_map (fun i => match i with SleepFor d => [d] | _ => [] end) code.

(** ** Durations *)

Definition TEXT_DELAY : Z := 3.
Definition MAIN_WAIT : Z := 1000.

(** [std::string::size()], a [size_t]. *)
Definition size (t : text) : Z := Z.of_nat (List.length t).

(** Arithmetic of [size_t] (unsigned, 64 bits) and the conversion of an
    unsigned 64-bit count to the signed [milliseconds::rep]. *)
Definition u64 (z : Z) : Z := z mod 2 ^ 64.
Definition i64_of_u64 (z : Z) : Z := (z + 2 ^ 63) mod 2 ^ 64 - 2 ^ 63.

(** [std::chrono::milliseconds(MAIN_WAIT + (rock_text.size() + hamlet_text.size()) * TEXT_DELAY)]:
    the sum of the sizes is a [size_t]; a [size_t] times a duration, and
    [MAIN_WAIT] plus the product, are durations with an unsigned 64-bit
    count; the result is converted to [milliseconds]. *)
Definition monitor_wait (rock hamlet : text) : Z :=
  i64_of_u64 (u64 (MAIN_WAIT + u64 (u64 (size rock + size hamlet) * TEXT_DELAY))).

(** ** The programs of the two demos *)

Definition rock_banner : text := line_lit "I Wanna Rock by Twisted Sister: ".
Definition hamlet_banner : text := line_lit "Hamlet Act III Scene I: ".

(** First thread of [raceTest]. *)
Definition race_threadA (rock : text) : list instr :=
  cout rock_banner ++ displayTextSlowly rock TEXT_DELAY.

(** Second thread of [raceTest]. *)
Definition race_threadB (hamlet : text) : list instr :=
  cout hamlet_banner ++ displayTextSlowly hamlet TEXT_DELAY
  ++ [SetFlag true; NotifyAll].

(** [raceTest()], on the orchestrating thread. *)
Definition raceTest (rock hamlet : text) : list instr :=
  cout (line_lit "Displaying texts with race conditions: ")
  ++ [Spawn TA (race_threadA rock); Spawn TB (race_threadB hamlet);
      Lock; WaitLoop; SleepFor MAIN_WAIT]
  ++ cout [nl] ++ [Unlock].

(** First thread of [monitorTest]. *)
Definition monitor_threadA (rock : text) : list instr :=
  cout rock_banner ++ displayTextSlowly rock TEXT_DELAY
  ++ [Putchar nl; SetFlag true; NotifyAll].

(** Second thread of [monitorTest]. *)
Definition monitor_threadB (hamlet : text) : list instr :=
  [Lock; WaitLoop] ++ cout hamlet_banner
  ++ displayTextSlowly hamlet TEXT_DELAY ++ [Unlock].

(** [monitorTest()], on the orchestrating thread. *)
Definition monitorTest (rock hamlet : text) : list instr :=
  cout (line_lit "Displaying texts in correct order with a monitor: ")
  ++ [Spawn TA (monitor_threadA rock); Spawn TB (monitor_threadB hamlet);
      SleepFor (monitor_wait rock hamlet)]
  ++ cout [nl].

(** ** Interleaving semantics *)

(** Where a thread stands inside [WaitLoop]; [Ready] everywhere else.
    - [Ready]: about to run its next instruction (for [WaitLoop], the test of
      the outer [while]);
    - [InnerCheck]: inside [cv.wait(lock, pred)], about to evaluate [pred()];
    - [AboutToBlock]: [pred()] was false, about to call [cv.wait(lock)];
    - [Blocked]: inside [cv.wait(lock)], mutex released, waiting;
    - [Reacquire]: woken up, about to take the mutex again. *)
Inductive wstate := Ready | InnerCheck | AboutToBlock | Blocked | Reacquire.

Definition thread : Type := wstate * list instr.

Record state := mkState {
  flag : bool;                 (* raceTestsFinished / finishedFirstText *)
  owner : option tid;          (* the thread holding raceMutex / printMutex *)
  out : list (tid * ascii);    (* the standard output, with who wrote what *)
  pool : tid -> option thread  (* [None]: not created yet *)
}.

Definition upd (t : tid) (th : thread) (p : tid -> option thread)
  : tid -> option thread :=
  fun t' => if tid_eqb t' t then Some th else p t'.

(** [notify_all]: every thread blocked on the condition variable wakes up. *)
Definition wake_all (p : tid -> option thread) : tid -> option thread :=
  fun t => match p t with
           | Some (Blocked, c) => Some (Reacquire, c)
           | other => other
           end.

(** What a step does, as seen from outside. *)
Inductive label :=
| LOut (c : ascii)
| LSleep (d : Z)
| LWrite (b : bool)
| LNotify
| LLock
| LUnlock
| LSpawn (t : tid)
| LRead (b : bool)
| LBlock
| LWake
| LReacquire.

(** The scheduler picks a thread to run for one step, or lets a blocked
    thread wake up with no notification (a spurious wakeup). *)
Inductive choice := Run (t : tid) | Spurious (t : tid).

Definition actor (ch : choice) : tid :=
  match ch with Run t | Spurious t => t end.

(** One step; [None] when the choice is not enabled (the thread does not
    exist, has finished, is blocked, or needs a mutex that is taken). *)
Definition exec (ch : choice) (s : state) : option (label * state) :=
  match ch with
  | Spurious t =>
      match pool s t with
      | Some (Blocked, c) =>
          Some (LWake, mkState (flag s) (owner s) (out s)
                               (upd t (Reacquire, c) (pool s)))
      | _ => None
      end
  | Run t =>
      match pool s t with
      | Some (ws, i :: c) =>
          match i with
          | Putchar ch =>
              Some (LOut ch, mkState (flag s) (owner s) (out s ++ [(t, ch)])
                                     (upd t (Ready, c) (pool s)))
          | SleepFor d =>
              Some (LSleep d, mkState (flag s) (owner s) (out s)
                                      (upd t (Ready, c) (pool s)))
          | SetFlag b =>
              Some (LWrite b, mkState b (owner s) (out s)
                                      (upd t (Ready, c) (pool s)))
          | NotifyAll =>
              Some (LNotify, mkState (flag s) (owner s) (out s)
                                     (upd t (Ready, c) (wake_all (pool s))))
          | Lock =>
              match owner s with
              | None => Some (LLock, mkState (flag s) (Some t) (out s)
                                             (upd t (Ready, c) (pool s)))
              | Some _ => None
              end
          | Unlock =>
              match owner s with
              | Some o =>
                  if tid_eqb o t
                  then Some (LUnlock, mkState (flag s) None (out s)
                                              (upd t (Ready, c) (pool s)))
                  else None
              | None => None
              end
          | Spawn t' body =>
              match pool s t' with
              | None =>
                  Some (LSpawn t', mkState (flag s) (owner s) (out s)
                                     (upd t' (Ready, body)
                                        (upd t (Ready, c) (pool s))))
              | Some _ => None
              end
          | WaitLoop =>
              match ws with
              | Ready =>
                  Some (LRead (flag s),
                        mkState (flag s) (owner s) (out s)
                          (upd t (if flag s then (Ready, c)
                                  else (InnerCheck, WaitLoop :: c)) (pool s)))
              | InnerCheck =>
                  Some (LRead (flag s),
                        mkState (flag s) (owner s) (out s)
                          (upd t (if flag s then (Ready, WaitLoop :: c)
                                  else (AboutToBlock, WaitLoop :: c)) (pool s)))
              | AboutToBlock =>
                  Some (LBlock, mkState (flag s) None (out s)
                                  (upd t (Blocked, WaitLoop :: c) (pool s)))
              | Blocked => None
              | Reacquire =>
                  match owner s with
                  | None =>
                      Some (LReacquire,
                            mkState (flag s) (Some t) (out s)
                              (upd t (InnerCheck, WaitLoop :: c) (pool s)))
                  | Some _ => None
                  end
              end
          end
      | _ => None
      end
  end.

(** An execution under a schedule: the trace of who did what, and the state
    reached; [None] when some choice of the schedule is not enabled. *)
Fixpoint run (sched : list choice) (s : state)
  : option (list (tid * label) * state) :=
  match sched with
  | [] => Some ([], s)
  | ch :: rest =>
      match exec ch s with
      | Some (l, s') =>
          match run rest s' with
          | Some (tr, s'') => Some ((actor ch, l) :: tr, s'')
          | None => None
          end
      | None => None
      end
  end.

(** The state in which a demo function is entered: flag false (its static
    initialiser), mutex free, only the orchestrating thread exists. *)
Definition start (prog : list instr) : state :=
  mkState false None []
          (fun t => match t with Main => Some (Ready, prog) | _ => None end).

Definition reachable (s0 s : state) : Prop :=
  exists sched tr, run sched s0 = Some (tr, s).

(** The number of steps of an execution at which the flag goes from false
    to true. *)
Fixpoint rises (sched : list choice) (s : state) : nat :=
  match sched with
  | [] => 0
  | ch :: rest =>
      match exec ch s with
      | Some (_, s') =>
          ((if negb (flag s) && flag s' then 1 else 0) + rises rest s')%nat
      | None => 0%nat
      end
  end.

(** The output of all threads but one, in the order of the standard
    output. *)
Definition out_but (t : tid) (o : list (tid * ascii)) : list (tid * ascii) :=
  filter (fun e => negb (tid_eqb (fst e) t)) o.

(** The operations on the monitor of a demo: its flag, its mutex and its
    condition variable. *)
Definition monitor_op (i : instr) : bool :=
  match i with
  | SetFlag _ | NotifyAll | Lock | WaitLoop | Unlock => true
  | Putchar _ | SleepFor _ | Spawn _ _ => false
  end.

(** ** The two demos and the roles of their threads *)

Inductive demo := RaceDemo | MonitorDemo.

(** The code each thread of a demo runs from its creation. *)
Definition demo_prog (d : demo) (rock hamlet : text) (t : tid) : list instr :=
  match d, t with
  | RaceDemo, Main => raceTest rock hamlet
  | RaceDemo, TA => race_threadA rock
  | RaceDemo, TB => race_threadB hamlet
  | MonitorDemo, Main => monitorTest rock hamlet
  | MonitorDemo, TA => monitor_threadA rock
  | MonitorDemo, TB => monitor_threadB hamlet
  end.

(** The thread that waits on the condition variable, the thread that sets
    the flag and notifies, and the remaining thread. *)
Definition waiter (d : demo) : tid :=
  match d with RaceDemo => Main | MonitorDemo => TB end.

Definition signaller (d : demo) : tid :=
  match d with RaceDemo => TB | MonitorDemo => TA end.

Definition bystander (d : demo) : tid :=
  match d with RaceDemo => TA | MonitorDemo => Main end.

(** What the waiter runs between its wait loop and its [lock.unlock()]. *)
Definition after_wait (d : demo) (hamlet : text) : list instr :=
  match d with
  | RaceDemo => SleepFor MAIN_WAIT :: cout [nl]
  | MonitorDemo => cout hamlet_banner ++ displayTextSlowly hamlet TEXT_DELAY
  end.

Definition demo_start (d : demo) (rock hamlet : text) : state :=
  start (demo_prog d rock hamlet Main).

(** ** Shapes of the remaining code, for the invariant *)

(** Instructions that touch neither the flag nor the monitor. *)
Definition plain (i : instr) : Prop :=
  match i with Putchar _ | SleepFor _ => True | _ => False end.

(** Plain instructions, and the creation of a thread with its own program. *)
Definition inert (prog : tid -> list instr) (i : instr) : Prop :=
  match i with
  | Putchar _ | SleepFor _ => True
  | Spawn t body => body = prog t
  | _ => False
  end.

(** The thread [t] of a pool; a thread not created yet stands at the start
    of its program. *)
Definition thr_of (prog : tid -> list instr) (p : tid -> option thread)
           (t : tid) : thread :=
  match p t with
  | Some th => th
  | None => (Ready, prog t)
  end.

(** The positions of the wait loop at which the thread holds the mutex. *)
Definition holds (ws : wstate) : bool :=
  match ws with
  | Ready | InnerCheck | AboutToBlock => true
  | Blocked | Reacquire => false
  end.

(** The effect of [notify_all] on one thread. *)
Definition woken (th : thread) : thread :=
  match th with
  | (Blocked, c) => (Reacquire, c)
  | other => other
  end.

(** The signaller: still printing, with the flag false; or past the
    assignment, with the flag true. *)
Inductive sig_shape (f : bool) : list instr -> Prop :=
| sig_before p :
    Forall plain p -> f = false ->
    sig_shape f (p ++ [SetFlag true; NotifyAll])
| sig_set : f = true -> sig_shape f [NotifyAll]
| sig_done : f = true -> sig_shape f [].

(** The waiter: before it locks, the mutex is free; in the wait loop, it
    holds the mutex except while blocked or woken; after the loop, it holds
    the mutex and the flag is true. *)
Inductive waiter_shape (prog : tid -> list instr) (W : tid)
          (post : list instr) (f : bool) (o : option tid) : thread -> Prop :=
| w_pre ws p :
    Forall (inert prog) p -> o = None ->
    waiter_shape prog W post f o (ws, p ++ Lock :: WaitLoop :: post ++ [Unlock])
| w_wait ws :
    o = (if holds ws then Some W else None) ->
    waiter_shape prog W post f o (ws, WaitLoop :: post ++ [Unlock])
| w_post ws q :
    Forall plain q -> f = true -> o = Some W ->
    waiter_shape prog W post f o (ws, q ++ [Unlock])
| w_done ws :
    f = true -> o = None ->
    waiter_shape prog W post f o (ws, []).

(** The invariant of a demo with waiter [W], signaller [S] and bystander
    [B]. *)
Definition monitor_inv (prog : tid -> list instr) (W S B : tid)
           (post : list instr) (s : state) : Prop :=
  sig_shape (flag s) (snd (thr_of prog (pool s) S))
  /\ waiter_shape prog W post (flag s) (owner s) (thr_of prog (pool s) W)
  /\ Forall (inert prog) (snd (thr_of prog (pool s) B)).

(** The output of [monitorTest]'s two threads so far: what the first thread
    wrote, then what the second wrote, each the part of its program's output
    that it has already run through. *)
Definition ordered_output (rock hamlet : text) (s : state) : Prop :=
  exists la lb,
    out_but Main (out s) = map (pair TA) la ++ map (pair TB) lb
    /\ la ++ chars (snd (thr_of (demo_prog MonitorDemo rock hamlet) (pool s) TA))
       = chars (monitor_threadA rock)
    /\ lb ++ chars (snd (thr_of (demo_prog MonitorDemo rock hamlet) (pool s) TB))
       = chars (monitor_threadB hamlet).

(** A thread stands at its wait loop, with [c] left to run after it. *)
Definition at_wait (s : state) (t : tid) (c : list instr) : Prop :=
  exists ws, pool s t = Some (ws, WaitLoop :: c).

(** ** Labels, positions and the rule of the spec *)

(** The characters a step writes, by its label. *)
Definition written (l : label) : text :=
  match l with LOut c => [c] | _ => [] end.

(** The thread [t] has left its wait loop for good: no wait loop remains in
    the code it has still to run. *)
Definition past_wait (prog : tid -> list instr) (s : state) (t : tid) : Prop :=
  ~ In WaitLoop (snd (thr_of prog (pool s) t)).

(** The labels of the steps that operate on the monitor: on the flag, the
    mutex or the condition variable. *)
Definition monitor_label (l : label) : bool :=
  match l with
  | LOut _ | LSleep _ | LSpawn _ => false
  | _ => true
  end.

(** The labels of the steps that read or write the flag. *)
Definition accesses_flag (l : label) : bool :=
  match l with LRead _ | LWrite _ => true | _ => false end.

(** The spec's rule for the flag: whoever reads or writes it holds the
    mutex at that step. *)
Definition flag_access_under_mutex (s0 : state) : Prop :=
  forall sched tr s ch l s',
    run sched s0 = Some (tr, s) ->
    exec ch s = Some (l, s') ->
    accesses_flag l = true ->
    owner s = Some (actor ch).

(** The trace and the final state of an execution, for schedules known to
    be enabled all along. *)
Definition trace_of (sched : list choice) (s : state) : list (tid * label) :=
  match run sched s with Some (tr, _) => tr | None => [] end.

Definition final_state (sched : list choice) (s : state) : state :=
  match run sched s with Some (_, s') => s' | None => s end.

(** ** Sample executions of [monitorTest] on the texts "AB" and "CD" *)

Definition demo_AB_CD : state := demo_start MonitorDemo (txt "AB") (txt "CD").

(** Each thread runs to its end, one after the other. *)
Definition sched_in_turn : list choice :=
  repeat (Run Main) 55 ++ repeat (Run TA) 40 ++ repeat (Run TB) 32.

(** The orchestrating thread creates both threads, then the first thread
    runs up to its assignment to the flag. *)
Definition sched_until_write : list choice :=
  repeat (Run Main) 53 ++ repeat (Run TA) 38.

(** The orchestrating thread creates both threads, then the second thread
    runs until it blocks on the condition variable. *)
Definition sched_until_blocked : list choice :=
  repeat (Run Main) 53 ++ repeat (Run TB) 4.

(** ** The rest of the program *)

(** [singleThreadTest()]: one chained [std::cout] statement, five string
    literals around the two texts. *)
Definition singleThreadTest (rock hamlet : text) : list instr :=
  cout (line_lit "Displaying texts in single thread:")
  ++ cout rock_banner ++ cout rock ++ cout [nl]
  ++ cout hamlet_banner ++ cout hamlet ++ cout [nl; nl].



(** The characters of a text after its last ['\n'] (after [cur], the part
    of the current line already seen). *)
Fixpoint last_line (cur b : text) : text :=
  match b with
  | [] => cur
  | c :: r =>
      if Ascii.eqb c nl then last_line [] r else last_line (cur ++ [c]) r
  end.

(** The sum of a list of durations. *)
Definition total (l : list Z) : Z := fold_right Z.add 0 l.

(** The first line each demo writes, on the orchestrating thread. *)
Definition demo_banner (d : demo) : text :=
  match d with
  | RaceDemo => line_lit "Displaying texts with race conditions: "
  | MonitorDemo => line_lit "Displaying texts in correct order with a monitor: "
  end.

(** What the orchestrating thread has left to run once both threads are
    created. *)
Definition demo_rest (d : demo) (rock hamlet : text) : list instr :=
  match d with
  | RaceDemo =>
      Lock :: WaitLoop :: after_wait RaceDemo hamlet ++ [Unlock]
  | MonitorDemo =>
      SleepFor (monitor_wait rock hamlet) :: cout [nl]
  end.

(** A step or an execution of thread [t] alone leaves the other threads as
    they are. *)
Definition frame (t : tid) (s s' : state) : Prop :=
  forall u, u <> t -> pool s' u = pool s u.

(** A schedule with no spurious wakeup of thread [t]. *)
Definition no_spurious (t : tid) (sched : list choice) : Prop :=
  Forall (fun ch => ch <> Spurious t) sched.

(** What thread [t] has written, in the order of the standard output. *)
Definition written_by (t : tid) (o : list (tid * ascii)) : text :=
  map snd (filter (fun e => tid_eqb (fst e) t) o).

(** Every thread is accounted for: what it has written so far, followed by
    what its remaining code writes, is what its program writes. *)
Definition accounted (prog : tid -> list instr) (s : state) : Prop :=
  forall t,
    written_by t (out s) ++ chars (snd (thr_of prog (pool s) t))
    = chars (prog t).

(** * Properties *)

(** ** [readFile] *)

Example readFile_two_lines :
  readFile (one_file "f" (txt "a" ++ [nl] ++ txt "b" ++ [nl])) "f"
  = Some (Returned (txt "a" ++ [nl] ++ txt "b" ++ [nl] ++ [nl])).
Proof. reflexivity. Qed.

Example readFile_no_final_nl :
  readFile (one_file "f" (txt "a" ++ [nl] ++ txt "b")) "f"
  = Some (Returned (txt "a" ++ [nl] ++ txt "b" ++ [nl] ++ txt "b" ++ [nl])).
Proof. reflexivity. Qed.

Example readFile_empty :
  readFile (one_file "f" []) "f" = Some (Returned [nl]).
Proof. reflexivity. Qed.

Example readFile_missing :
  readFile (one_file "f" []) "g" = Some (Exited 1 open_error).
Proof. reflexivity. Qed.

Lemma extract_line_shorter (b l rest : text) :
  extract_line b = (l, Some rest) -> (List.length rest < List.length b)%nat.
Proof.
  revert l rest; induction b as [|c r IH]; intros l rest E; simpl in E.
  - discriminate.
  - destruct (Ascii.eqb c nl).
    + inversion E; subst. simpl. lia.
    + destruct (extract_line r) as [l' o] eqn:Er.
      inversion E; subst. specialize (IH _ _ eq_refl). simpl. lia.
Qed.

(** [accumulated] unfolds along the line that [extract_line] cuts off. *)
Lemma accumulated_extract (b cur : text) :
  accumulated cur b =
  match extract_line b with
  | (l, Some rest) => (cur ++ l) ++ [nl] ++ accumulated [] rest
  | (l, None) =>
      match cur ++ l with
      | [] => [nl]
      | _ :: _ => (cur ++ l) ++ [nl] ++ (cur ++ l) ++ [nl]
      end
  end.
Proof.
  revert cur; induction b as [|c r IH]; intros cur; simpl.
  - rewrite app_nil_r. reflexivity.
  - destruct (Ascii.eqb c nl).
    + rewrite app_nil_r. reflexivity.
    + rewrite IH. destruct (extract_line r) as [l [rest|]];
        rewrite <- !app_assoc; reflexivity.
Qed.

(** A stream on which [eofbit] alone is set is still true: the loop runs
    once more, the read fails and the old line is appended again. *)
Lemma read_loop_at_eof (fuel : nat) (data line : text) :
  read_loop (S fuel) (mkStream [] true false) data line
  = Some (data ++ line ++ [nl]).
Proof. destruct fuel; reflexivity. Qed.

(** The loop ends, with enough fuel, and yields [accumulated]. *)
Lemma read_loop_accumulated (fuel : nat) :
  forall (b data line : text),
    (2 + List.length b <= fuel)%nat ->
    read_loop fuel (mkStream b false false) data line
    = Some (data ++ accumulated [] b).
Proof.
  induction fuel as [|f IH]; intros b data line Hf; [lia|].
  rewrite (accumulated_extract b []).
  cbn [read_loop stream_ok failbit negb getline good eofbit rdbuf andb].
  destruct (extract_line b) as [l [rest|]] eqn:E.
  - pose proof (extract_line_shorter _ _ _ E) as Hlt.
    rewrite IH by lia. rewrite <- !app_assoc. reflexivity.
  - destruct l as [|c l]; simpl.
    + destruct f; reflexivity.
    + destruct f as [|f]; [simpl in Hf; lia|].
      rewrite read_loop_at_eof. f_equal.
      repeat (rewrite <- app_assoc; simpl). reflexivity.
Qed.

(** [readFile] is total, and on a file that opens it returns [accumulated]. *)
Lemma readFile_opened (fs : string -> option text) (name : string)
      (content : text) :
  fs name = Some content ->
  readFile fs name = Some (Returned (accumulated [] content)).
Proof.
  intros E. unfold readFile. rewrite E. simpl open.
  cbn [stream_ok failbit negb rdbuf].
  rewrite read_loop_accumulated by (simpl; lia). reflexivity.
Qed.

Lemma accumulated_ends_nl (b cur : text) :
  exists d, accumulated cur b = d ++ [nl].
Proof.
  revert cur; induction b as [|c r IH]; intros cur; simpl.
  - destruct cur as [|a cur].
    + exists []. reflexivity.
    + exists ((a :: cur) ++ [nl] ++ (a :: cur)).
      rewrite <- !app_assoc. reflexivity.
  - destruct (Ascii.eqb c nl).
    + destruct (IH []) as [d Hd]. exists (cur ++ [nl] ++ d).
      rewrite Hd, <- !app_assoc. reflexivity.
    + apply IH.
Qed.

(** The accumulated data is longer than the content by at least one
    character, and by at least two when the last line is unterminated. *)
Lemma accumulated_length (b cur : text) :
  (List.length cur + List.length b + 1 <= List.length (accumulated cur b))%nat.
Proof.
  revert cur; induction b as [|c r IH]; intros cur; simpl.
  - destruct cur; simpl; rewrite ?length_app; simpl;
      rewrite ?length_app; simpl; lia.
  - destruct (Ascii.eqb c nl).
    + rewrite !length_app. specialize (IH []). simpl in *. lia.
    + specialize (IH (cur ++ [c])). rewrite length_app in IH. simpl in IH. lia.
Qed.

Lemma accumulated_snoc_length (b cur : text) (c : ascii) :
  Ascii.eqb c nl = false ->
  (List.length cur + List.length b + 3
   <= List.length (accumulated cur (b ++ [c])))%nat.
Proof.
  intros Hc. revert cur; induction b as [|a r IH]; intros cur; simpl.
  - rewrite Hc. destruct (cur ++ [c]) eqn:E.
    + destruct cur; discriminate.
    + rewrite <- E. rewrite !length_app. simpl. rewrite !length_app. simpl. lia.
  - destruct (Ascii.eqb a nl).
    + rewrite !length_app. specialize (IH []). simpl in *. lia.
    + specialize (IH (cur ++ [a])). rewrite length_app in IH. simpl in IH. lia.
Qed.

(** On no file with content does [readFile] return what the spec describes:
    the data is always strictly longer. *)
Lemma readFile_longer_than_load_spec (content : text) :
  content <> [] ->
  (List.length (load_spec content) < List.length (accumulated [] content))%nat.
Proof.
  intros Hne. destruct (exists_last Hne) as [b [c ->]].
  unfold load_spec, ends_with_nl. rewrite rev_app_distr. simpl.
  destruct (Ascii.eqb c nl) eqn:Hc.
  - pose proof (accumulated_length (b ++ [c]) []). simpl in *. lia.
  - pose proof (accumulated_snoc_length b [] c Hc).
    rewrite !length_app. simpl in *. lia.
Qed.

(** C5.  The claim, that [readFile] returns the content of a non-empty file
    with one newline appended only when the file lacks a final one, fails on
    the code.  On the two-line file "a\nb" the last line comes twice, and on
    the file "a\n" an empty line is added; [load_spec] is what the claim
    describes. *)
Theorem readFile_repeats_last_line :
  readFile (one_file "f" (txt "a" ++ [nl] ++ txt "b")) "f"
  = Some (Returned (txt "a" ++ [nl] ++ txt "b" ++ [nl] ++ txt "b" ++ [nl]))
  /\ load_spec (txt "a" ++ [nl] ++ txt "b") = txt "a" ++ [nl] ++ txt "b" ++ [nl]
  /\ readFile (one_file "f" (txt "a" ++ [nl])) "f"
     = Some (Returned (txt "a" ++ [nl] ++ [nl]))
  /\ load_spec (txt "a" ++ [nl]) = txt "a" ++ [nl].
Proof. repeat split; reflexivity. Qed.

(** C6.  When the file cannot be opened, [readFile] writes its message to the
    error stream and the process exits with status 1; nothing is read and no
    data is returned. *)
Theorem readFile_unopenable (fs : string -> option text) (name : string)
        (Hclosed : fs name = None) :
  readFile fs name = Some (Exited 1 open_error).
Proof. unfold readFile. rewrite Hclosed. reflexivity. Qed.

Lemma readFile_unopenable_witness :
  readFile (one_file "hamlet.txt" (txt "To be")) "i_wanna_rock.txt"
  = Some (Exited 1 open_error).
Proof. apply readFile_unopenable. reflexivity. Defined.

(** C10.  On a file that opens, [readFile] returns data that ends in a
    newline, so it is never empty; on the empty file the data is the single
    newline. *)
Theorem readFile_ends_in_newline (fs : string -> option text) (name : string)
        (content : text) (Hopen : fs name = Some content) :
  exists d,
    readFile fs name = Some (Returned (d ++ [nl]))
    /\ match content with [] => d = [] | _ :: _ => True end.
Proof.
  rewrite (readFile_opened _ _ _ Hopen).
  destruct content as [|c r].
  - exists []. split; reflexivity.
  - destruct (accumulated_ends_nl (c :: r) []) as [d Hd].
    exists d. rewrite Hd. split; [reflexivity | exact I].
Qed.

Lemma readFile_ends_in_newline_witness :
  exists d,
    readFile (one_file "hamlet.txt" []) "hamlet.txt" = Some (Returned (d ++ [nl]))
    /\ d = [].
Proof. exact (readFile_ends_in_newline (one_file "hamlet.txt" []) "hamlet.txt" [] eq_refl). Defined.

(** ** [displayTextSlowly] *)

Lemma chars_app (p q : list instr) : chars (p ++ q) = chars p ++ chars q.
Proof. apply flat_map_app. Qed.

Lemma sleeps_app (p q : list instr) : sleeps (p ++ q) = sleeps p ++ sleeps q.
Proof. apply flat_map_app. Qed.

Lemma chars_cout (s : text) : chars (cout s) = s.
Proof. induction s as [|c s IH]; simpl; [|rewrite IH]; reflexivity. Qed.

Lemma sleeps_cout (s : text) : sleeps (cout s) = [].
Proof. induction s as [|c s IH]; simpl; [reflexivity | exact IH]. Qed.

Lemma chars_display (t : text) (d : Z) : chars (displayTextSlowly t d) = t.
Proof. induction t as [|c t IH]; simpl; [|rewrite IH]; reflexivity. Qed.

Lemma sleeps_display (t : text) (d : Z) :
  sleeps (displayTextSlowly t d) = repeat d (List.length t).
Proof. induction t as [|c t IH]; simpl; [|rewrite IH]; reflexivity. Qed.

Lemma monitor_op_cout (s : text) : existsb monitor_op (cout s) = false.
Proof. induction s as [|c s IH]; simpl; [reflexivity | exact IH]. Qed.

Lemma monitor_op_display (t : text) (d : Z) :
  existsb monitor_op (displayTextSlowly t d) = false.
Proof. induction t as [|c t IH]; simpl; [reflexivity | exact IH]. Qed.

(** C7.  On the empty text [displayTextSlowly] does nothing: no character is
    written and no sleep is taken, whatever the delay. *)
Theorem display_empty (delay : Z) :
  displayTextSlowly [] delay = []
  /\ chars (displayTextSlowly [] delay) = []
  /\ sleeps (displayTextSlowly [] delay) = [].
Proof. repeat split. Qed.

(** C8, as the claim states it: no sleep after the last character.  The code
    sleeps after every character, the last one included. *)
Lemma display_sleeps_after_last :
  displayTextSlowly (txt "ab") TEXT_DELAY
  = [Putchar "a"; SleepFor 3; Putchar "b"; SleepFor 3]
  /\ display_spec (txt "ab") TEXT_DELAY = [Putchar "a"; SleepFor 3; Putchar "b"]
  /\ displayTextSlowly (txt "ab") TEXT_DELAY <> display_spec (txt "ab") TEXT_DELAY.
Proof. repeat split. discriminate. Qed.

(** C8, amended.  [displayTextSlowly] writes the characters of the text in
    order, each by a [putchar] of its own, and sleeps for the delay after
    each of them: on a text that is not empty it does what the spec
    describes and then sleeps once more. *)
Theorem display_char_then_sleep (t : text) (delay : Z) :
  chars (displayTextSlowly t delay) = t
  /\ sleeps (displayTextSlowly t delay) = repeat delay (List.length t)
  /\ displayTextSlowly t delay
     = match t with
       | [] => []
       | _ :: _ => display_spec t delay ++ [SleepFor delay]
       end.
Proof.
  split; [apply chars_display|]. split; [apply sleeps_display|].
  induction t as [|c t IH]; [reflexivity|].
  change (displayTextSlowly (c :: t) delay)
    with (Putchar c :: SleepFor delay :: displayTextSlowly t delay).
  rewrite IH. destruct t as [|c' t]; reflexivity.
Qed.

(** ** The wait of the orchestrating thread of [monitorTest] *)

Lemma monitor_wait_exact (rock hamlet : text) :
  MAIN_WAIT + (size rock + size hamlet) * TEXT_DELAY < 2 ^ 63 ->
  monitor_wait rock hamlet = MAIN_WAIT + (size rock + size hamlet) * TEXT_DELAY.
Proof.
  unfold monitor_wait, i64_of_u64, u64, MAIN_WAIT, TEXT_DELAY, size.
  intros H.
  pose proof (Nat2Z.is_nonneg (List.length rock)).
  pose proof (Nat2Z.is_nonneg (List.length hamlet)).
  set (n := Z.of_nat (List.length rock) + Z.of_nat (List.length hamlet)) in *.
  assert (Hn : 0 <= n) by (subst n; lia).
  assert (E64 : 2 ^ 64 = 18446744073709551616) by reflexivity.
  assert (E63 : 2 ^ 63 = 9223372036854775808) by reflexivity.
  rewrite E64, E63 in *.
  rewrite (Z.mod_small n) by lia.
  rewrite (Z.mod_small (n * 3)) by lia.
  rewrite (Z.mod_small (1000 + n * 3)) by lia.
  rewrite Z.mod_small by lia. lia.
Qed.

(** ** Pools and threads *)

Lemma tid_eqb_refl (t : tid) : tid_eqb t t = true.
Proof. destruct t; reflexivity. Qed.

Lemma tid_eqb_neq (a b : tid) : a <> b -> tid_eqb a b = false.
Proof. destruct a, b; simpl; congruence. Qed.

Lemma tid_eqb_eq (a b : tid) : tid_eqb a b = true -> a = b.
Proof. destruct a, b; simpl; congruence. Qed.

Lemma thr_of_upd (prog : tid -> list instr) (p : tid -> option thread)
      (t t' : tid) (th : thread) :
  thr_of prog (upd t th p) t' = if tid_eqb t' t then th else thr_of prog p t'.
Proof. unfold thr_of, upd. destruct (tid_eqb t' t); reflexivity. Qed.

Lemma thr_of_wake_all (prog : tid -> list instr) (p : tid -> option thread)
      (t : tid) :
  thr_of prog (wake_all p) t = woken (thr_of prog p t).
Proof.
  unfold thr_of, wake_all. destruct (p t) as [[[] c]|]; reflexivity.
Qed.

Lemma thr_of_some (prog : tid -> list instr) (p : tid -> option thread)
      (t : tid) (th : thread) :
  p t = Some th -> thr_of prog p t = th.
Proof. unfold thr_of. intros ->. reflexivity. Qed.

Lemma thr_of_none (prog : tid -> list instr) (p : tid -> option thread)
      (t : tid) :
  p t = None -> thr_of prog p t = (Ready, prog t).
Proof. unfold thr_of. intros ->. reflexivity. Qed.

Lemma snd_woken (th : thread) : snd (woken th) = snd th.
Proof. destruct th as [[] c]; reflexivity. Qed.

Lemma waiter_shape_woken (prog : tid -> list instr) (W : tid)
      (post : list instr) (f : bool) (o : option tid) (th : thread) :
  waiter_shape prog W post f o th -> waiter_shape prog W post f o (woken th).
Proof.
  intros H. destruct H as [ws p Hp Ho | ws Ho | ws q Hq Hf Ho | ws Hf Ho].
  - replace (woken (ws, p ++ Lock :: WaitLoop :: post ++ [Unlock]))
      with (fst (woken (ws, p)), p ++ Lock :: WaitLoop :: post ++ [Unlock])
      by (destruct ws; reflexivity).
    now apply w_pre.
  - replace (woken (ws, WaitLoop :: post ++ [Unlock]))
      with (fst (woken (ws, [Unlock])), WaitLoop :: post ++ [Unlock])
      by (destruct ws; reflexivity).
    apply w_wait. destruct ws; exact Ho.
  - replace (woken (ws, q ++ [Unlock]))
      with (fst (woken (ws, q)), q ++ [Unlock])
      by (destruct ws; reflexivity).
    now apply w_post.
  - replace (woken (ws, @nil instr)) with (fst (woken (ws, [Unlock])), @nil instr)
      by (destruct ws; reflexivity).
    now apply w_done.
Qed.

Lemma waiter_shape_set (prog : tid -> list instr) (W : tid)
      (post : list instr) (f : bool) (o : option tid) (th : thread) :
  waiter_shape prog W post f o th -> waiter_shape prog W post true o th.
Proof.
  intros H. destruct H as [ws p Hp Ho | ws Ho | ws q Hq Hf Ho | ws Hf Ho].
  - now apply w_pre.
  - now apply w_wait.
  - now apply w_post.
  - now apply w_done.
Qed.

Lemma plain_inert (prog : tid -> list instr) (i : instr) :
  plain i -> inert prog i.
Proof. destruct i; simpl; tauto. Qed.

(** ** What the label of a step tells *)

Lemma exec_read (ch : choice) (s : state) (b : bool) (s' : state) :
  exec ch s = Some (LRead b, s') ->
  exists t ws c,
    ch = Run t /\ pool s t = Some (ws, WaitLoop :: c)
    /\ holds ws = true /\ b = flag s.
Proof.
  destruct ch as [t|t]; simpl.
  - destruct (pool s t) as [[ws [|i c]]|] eqn:Ep; try discriminate.
    destruct i; try discriminate.
    + destruct (owner s); discriminate.
    + destruct ws; try discriminate.
      * intros He; inversion He; subst. exists t, Ready, c. auto.
      * intros He; inversion He; subst. exists t, InnerCheck, c. auto.
      * destruct (owner s); discriminate.
    + destruct (owner s) as [o|]; try discriminate.
      destruct (tid_eqb o t); discriminate.
    + destruct (pool s t0); discriminate.
  - destruct (pool s t) as [[[] c]|]; discriminate.
Qed.

Lemma exec_write (ch : choice) (s : state) (b : bool) (s' : state) :
  exec ch s = Some (LWrite b, s') ->
  exists t ws c,
    ch = Run t /\ pool s t = Some (ws, SetFlag b :: c)
    /\ s' = mkState b (owner s) (out s) (upd t (Ready, c) (pool s)).
Proof.
  destruct ch as [t|t]; simpl.
  - destruct (pool s t) as [[ws [|i c]]|] eqn:Ep; try discriminate.
    destruct i; try discriminate.
    + intros He; inversion He; subst. exists t, ws, c. auto.
    + destruct (owner s); discriminate.
    + destruct ws; try discriminate. destruct (owner s); discriminate.
    + destruct (owner s) as [o|]; try discriminate.
      destruct (tid_eqb o t); discriminate.
    + destruct (pool s t0); discriminate.
  - destruct (pool s t) as [[[] c]|]; discriminate.
Qed.

(** Only an assignment changes the flag. *)
Lemma exec_flag (ch : choice) (s : state) (l : label) (s' : state) :
  exec ch s = Some (l, s') ->
  flag s' = flag s \/ l = LWrite (flag s').
Proof.
  destruct ch as [t|t]; simpl.
  - destruct (pool s t) as [[ws [|i c]]|] eqn:Ep; try discriminate.
    destruct i; try (intros He; inversion He; subst; simpl; auto; fail).
    + destruct (owner s); try discriminate.
      intros He; inversion He; subst; simpl; auto.
    + destruct ws; try discriminate;
        try (intros He; inversion He; subst; simpl; auto; fail).
      destruct (owner s); try discriminate.
      intros He; inversion He; subst; simpl; auto.
    + destruct (owner s) as [o|]; try discriminate.
      destruct (tid_eqb o t); try discriminate.
      intros He; inversion He; subst; simpl; auto.
    + destruct (pool s t0); try discriminate.
      intros He; inversion He; subst; simpl; auto.
  - destruct (pool s t) as [[[] c]|]; try discriminate.
    intros He; inversion He; subst; simpl; auto.
Qed.

(** A step appends to the output exactly what its label shows. *)
Lemma exec_out (ch : choice) (s : state) (l : label) (s' : state) :
  exec ch s = Some (l, s') ->
  out s' = out s ++ map (pair (actor ch)) (written l).
Proof.
  destruct ch as [t|t]; simpl.
  - destruct (pool s t) as [[ws [|i c]]|] eqn:Ep; try discriminate.
    destruct i;
      try (intros He; inversion He; subst; simpl;
           rewrite ?app_nil_r; reflexivity).
    + destruct (owner s); try discriminate.
      intros He; inversion He; subst; simpl. now rewrite app_nil_r.
    + destruct ws; try discriminate;
        try (intros He; inversion He; subst; simpl;
             rewrite ?app_nil_r; reflexivity).
      destruct (owner s); try discriminate.
      intros He; inversion He; subst; simpl. now rewrite app_nil_r.
    + destruct (owner s) as [o|]; try discriminate.
      destruct (tid_eqb o t); try discriminate.
      intros He; inversion He; subst; simpl. now rewrite app_nil_r.
    + destruct (pool s t0); try discriminate.
      intros He; inversion He; subst; simpl. now rewrite app_nil_r.
  - destruct (pool s t) as [[[] c]|]; try discriminate.
    intros He; inversion He; subst; simpl. now rewrite app_nil_r.
Qed.

(** The thread that steps runs through the character its label shows, and
    through no other. *)
Lemma exec_chars_actor (prog : tid -> list instr) (ch : choice) (s : state)
      (l : label) (s' : state) :
  exec ch s = Some (l, s') ->
  chars (snd (thr_of prog (pool s) (actor ch)))
  = written l ++ chars (snd (thr_of prog (pool s') (actor ch))).
Proof.
  assert (Hsame : forall t th p, thr_of prog (upd t th p) t = th).
  { intros t th p. rewrite thr_of_upd. now rewrite tid_eqb_refl. }
  destruct ch as [t|t]; simpl.
  - destruct (pool s t) as [[ws [|i c]]|] eqn:Ep; try discriminate.
    rewrite (thr_of_some prog _ _ _ Ep).
    destruct i;
      try (intros He; inversion He; subst; simpl; rewrite Hsame; reflexivity).
    + destruct (owner s); try discriminate.
      intros He; inversion He; subst; simpl. now rewrite Hsame.
    + destruct ws; try discriminate;
        try (intros He; inversion He; subst; simpl; rewrite Hsame;
             destruct (flag s); reflexivity).
      destruct (owner s); try discriminate.
      intros He; inversion He; subst; simpl. now rewrite Hsame.
    + destruct (owner s) as [o|]; try discriminate.
      destruct (tid_eqb o t); try discriminate.
      intros He; inversion He; subst; simpl. now rewrite Hsame.
    + destruct (pool s t0) eqn:E0; try discriminate.
      intros He; inversion He; subst; simpl.
      rewrite thr_of_upd.
      assert (Hne : t <> t0) by congruence.
      rewrite (tid_eqb_neq _ _ Hne). now rewrite Hsame.
  - destruct (pool s t) as [[[] c]|] eqn:Ep; try discriminate.
    rewrite (thr_of_some prog _ _ _ Ep).
    intros He; inversion He; subst; simpl. now rewrite Hsame.
Qed.

(** A thread that does not exist yet is created only by a [Spawn]. *)
Lemma exec_pool_none (ch : choice) (s : state) (l : label) (s' : state)
      (t : tid) :
  exec ch s = Some (l, s') ->
  pool s t = None ->
  pool s' t = None
  \/ exists ws c body,
       pool s (actor ch) = Some (ws, Spawn t body :: c)
       /\ pool s' t = Some (Ready, body).
Proof.
  intros He Ep.
  destruct ch as [u|u]; simpl in *.
  - destruct (pool s u) as [[wu [|i cu]]|] eqn:Eu; try discriminate.
    assert (Hne : t <> u) by congruence.
    assert (Hupd : forall th p, upd u th p t = p t).
    { intros th p. unfold upd. now rewrite (tid_eqb_neq _ _ Hne). }
    assert (Hwake : wake_all (pool s) t = None).
    { unfold wake_all. now rewrite Ep. }
    destruct i.
    + inversion He; subst; simpl; rewrite Hupd; auto.
    + inversion He; subst; simpl; rewrite Hupd; auto.
    + inversion He; subst; simpl; rewrite Hupd; auto.
    + inversion He; subst; simpl; rewrite Hupd; auto.
    + destruct (owner s); try discriminate.
      inversion He; subst; simpl; rewrite Hupd; auto.
    + destruct wu; try discriminate;
        try (inversion He; subst; simpl; rewrite Hupd; auto; fail).
      destruct (owner s); try discriminate.
      inversion He; subst; simpl; rewrite Hupd; auto.
    + destruct (owner s) as [o|]; try discriminate.
      destruct (tid_eqb o u); try discriminate.
      inversion He; subst; simpl; rewrite Hupd; auto.
    + destruct (pool s t0) eqn:E0; try discriminate.
      inversion He; subst; simpl.
      destruct (tid_eqb t t0) eqn:Ett.
      * apply tid_eqb_eq in Ett. subst t0. right.
        exists wu, cu, body. split; [reflexivity|].
        unfold upd at 1. now rewrite tid_eqb_refl.
      * left. unfold upd at 1. rewrite Ett. rewrite Hupd. exact Ep.
  - destruct (pool s u) as [[[] cu]|] eqn:Eu; try discriminate.
    inversion He; subst; simpl.
    assert (Hne : t <> u) by congruence.
    unfold upd. rewrite (tid_eqb_neq _ _ Hne). auto.
Qed.

(** A step of one thread leaves the code of the others as it is. *)
Lemma exec_pool_other (ch : choice) (s : state) (l : label) (s' : state)
      (t : tid) (ws : wstate) (c : list instr) :
  exec ch s = Some (l, s') ->
  t <> actor ch ->
  pool s t = Some (ws, c) ->
  exists ws', pool s' t = Some (ws', c).
Proof.
  intros He Hne Ep.
  assert (Hupd : forall th p, (exists ws', p t = Some (ws', c)) ->
                              exists ws', upd (actor ch) th p t = Some (ws', c)).
  { intros th p H. unfold upd. now rewrite (tid_eqb_neq _ _ Hne). }
  assert (Hwake : exists ws', wake_all (pool s) t = Some (ws', c)).
  { unfold wake_all. rewrite Ep. destruct ws; eauto. }
  destruct ch as [u|u]; simpl in He, Hupd, Hne.
  - destruct (pool s u) as [[wu [|i cu]]|] eqn:Eu; try discriminate.
    destruct i.
    + inversion He; subst; simpl; eauto.
    + inversion He; subst; simpl; eauto.
    + inversion He; subst; simpl; eauto.
    + inversion He; subst; simpl; eauto.
    + destruct (owner s); try discriminate.
      inversion He; subst; simpl; eauto.
    + destruct wu; try discriminate;
        try (inversion He; subst; simpl; eauto; fail).
      destruct (owner s); try discriminate.
      inversion He; subst; simpl; eauto.
    + destruct (owner s) as [o|]; try discriminate.
      destruct (tid_eqb o u); try discriminate.
      inversion He; subst; simpl; eauto.
    + destruct (pool s t0) eqn:E0; try discriminate.
      inversion He; subst; simpl.
      assert (Ht0 : t <> t0) by congruence.
      unfold upd at 1. rewrite (tid_eqb_neq _ _ Ht0). eauto.
  - destruct (pool s u) as [[[] cu]|]; try discriminate.
    inversion He; subst; simpl; eauto.
Qed.

(** A step at an instruction other than the wait loop moves the thread past
    that instruction. *)
Lemma exec_code_actor (prog : tid -> list instr) (t : tid) (s : state)
      (l : label) (s' : state) (ws : wstate) (i : instr) (c : list instr) :
  exec (Run t) s = Some (l, s') ->
  pool s t = Some (ws, i :: c) ->
  i <> WaitLoop ->
  snd (thr_of prog (pool s') t) = c.
Proof.
  intros He Ep Hi. simpl in He. rewrite Ep in He.
  assert (Hsame : forall th p, thr_of prog (upd t th p) t = th).
  { intros th p. rewrite thr_of_upd. now rewrite tid_eqb_refl. }
  destruct i; try congruence.
  - inversion He; subst; simpl. now rewrite Hsame.
  - inversion He; subst; simpl. now rewrite Hsame.
  - inversion He; subst; simpl. now rewrite Hsame.
  - inversion He; subst; simpl. now rewrite Hsame.
  - destruct (owner s); try discriminate.
    inversion He; subst; simpl. now rewrite Hsame.
  - destruct (owner s) as [o|]; try discriminate.
    destruct (tid_eqb o t); try discriminate.
    inversion He; subst; simpl. now rewrite Hsame.
  - destruct (pool s t0) eqn:E0; try discriminate.
    inversion He; subst; simpl.
    rewrite thr_of_upd.
    assert (Hne : t <> t0) by congruence.
    rewrite (tid_eqb_neq _ _ Hne). now rewrite Hsame.
Qed.

(** ** The wait loop *)

(** One step of a thread that stands at its wait loop: it stays there,
    unless the step is its own read of the flag and the flag is true. *)
Lemma wait_step (ch : choice) (s : state) (l : label) (s1 : state) (t : tid)
      (c : list instr) :
  at_wait s t c ->
  exec ch s = Some (l, s1) ->
  at_wait s1 t c
  \/ (ch = Run t /\ l = LRead true /\ flag s = true
      /\ pool s t = Some (Ready, WaitLoop :: c)
      /\ pool s1 t = Some (Ready, c)).
Proof.
  intros [ws Ep] He.
  assert (Hsame : forall th p, upd t th p t = Some th).
  { intros th p. unfold upd. now rewrite tid_eqb_refl. }
  destruct ch as [u|u].
  - destruct (tid_eqb u t) eqn:Eut.
    + apply tid_eqb_eq in Eut. subst u. simpl in He. rewrite Ep in He.
      destruct ws.
      * destruct (flag s) eqn:Hf; inversion He; subst; clear He.
        -- right. simpl. rewrite Hsame. auto.
        -- left. exists InnerCheck. simpl. apply Hsame.
      * destruct (flag s) eqn:Hf; inversion He; subst; clear He; left;
          eexists; simpl; apply Hsame.
      * inversion He; subst; clear He. left. eexists. simpl. apply Hsame.
      * discriminate.
      * destruct (owner s); try discriminate.
        inversion He; subst; clear He. left. eexists. simpl. apply Hsame.
    + left. eapply exec_pool_other; [exact He | | exact Ep].
      simpl. intros ->. now rewrite tid_eqb_refl in Eut.
  - destruct (tid_eqb u t) eqn:Eut.
    + apply tid_eqb_eq in Eut. subst u. simpl in He. rewrite Ep in He.
      destruct ws; try discriminate.
      inversion He; subst; clear He. left. eexists. simpl. apply Hsame.
    + left. eapply exec_pool_other; [exact He | | exact Ep].
      simpl. intros ->. now rewrite tid_eqb_refl in Eut.
Qed.

Lemma run_app (a b : list choice) (s : state) :
  run (a ++ b) s
  = match run a s with
    | Some (tr1, s1) =>
        match run b s1 with
        | Some (tr2, s2) => Some (tr1 ++ tr2, s2)
        | None => None
        end
    | None => None
    end.
Proof.
  revert s; induction a as [|ch a IH]; intros s; simpl.
  - destruct (run b s) as [[tr2 s2]|]; reflexivity.
  - destruct (exec ch s) as [[l s1]|]; [|reflexivity].
    rewrite IH. destruct (run a s1) as [[tr1 s2]|]; [|reflexivity].
    destruct (run b s2) as [[tr2 s3]|]; reflexivity.
Qed.

(** Along an execution, a thread that stood at its wait loop either still
    stands there, or at some point read the flag while it was true. *)
Lemma wait_run (sched : list choice) :
  forall (s : state) (tr : list (tid * label)) (s' : state) (t : tid)
         (c : list instr),
    at_wait s t c ->
    run sched s = Some (tr, s') ->
    at_wait s' t c
    \/ exists before after tr1 s1 s2,
        sched = before ++ Run t :: after
        /\ run before s = Some (tr1, s1)
        /\ flag s1 = true
        /\ exec (Run t) s1 = Some (LRead true, s2)
        /\ pool s2 t = Some (Ready, c).
Proof.
  induction sched as [|ch rest IH]; intros s tr s' t c Hw Hr; simpl in Hr.
  - inversion Hr; subst. now left.
  - destruct (exec ch s) as [[l s1]|] eqn:He; try discriminate.
    destruct (run rest s1) as [[tr1 s2]|] eqn:Hr1; try discriminate.
    inversion Hr; subst; clear Hr.
    destruct (wait_step _ _ _ _ _ _ Hw He) as [Hw1 | (-> & -> & Hf & _ & Hp)].
    + destruct (IH _ _ _ _ _ Hw1 Hr1)
        as [Hw' | (before & after & tr0 & sa & sb & -> & Hb & Hf & Hx & Hp)].
      * now left.
      * right. exists (ch :: before), after, ((actor ch, l) :: tr0), sa, sb.
        simpl. rewrite He, Hb. auto.
    + right. exists [], rest, [], s, s1. simpl. auto.
Qed.

(** A thread woken up while the flag is false, with the mutex free, takes
    the mutex, reads the flag, and blocks again. *)
Lemma wakeup_reenters (s : state) (t : tid) (c : list instr) :
  pool s t = Some (Blocked, WaitLoop :: c) ->
  flag s = false -> owner s = None ->
  exists s',
    run [Spurious t; Run t; Run t; Run t] s
    = Some ([(t, LWake); (t, LReacquire); (t, LRead false); (t, LBlock)], s')
    /\ pool s' t = Some (Blocked, WaitLoop :: c)
    /\ flag s' = false /\ owner s' = None.
Proof.
  intros Ep Hf Ho.
  unfold run, exec. rewrite Ep. cbn [pool flag owner out].
  unfold upd at 1. rewrite tid_eqb_refl. rewrite Ho. cbn [pool flag owner out].
  unfold upd at 1. rewrite tid_eqb_refl. rewrite Hf. cbn [pool flag owner out].
  unfold upd at 1. rewrite tid_eqb_refl. cbn [pool flag owner out actor].
  eexists. split; [reflexivity|]. cbn [pool flag owner].
  unfold upd at 1. rewrite tid_eqb_refl. auto.
Qed.

(** ** The monitor invariant is preserved by every step *)

Section Invariant.

Variables (prog : tid -> list instr) (W S B : tid) (post : list instr).
Hypothesis HWS : W <> S.
Hypothesis HWB : W <> B.
Hypothesis HSB : S <> B.
Hypothesis Hall : forall t, t = W \/ t = S \/ t = B.
Hypothesis Hpost : Forall plain post.

Lemma roles_eqb :
  tid_eqb W S = false /\ tid_eqb S W = false /\ tid_eqb W B = false
  /\ tid_eqb B W = false /\ tid_eqb S B = false /\ tid_eqb B S = false.
Proof. repeat split; apply tid_eqb_neq; congruence. Qed.

Lemma eWS : tid_eqb W S = false. Proof. apply roles_eqb. Qed.
Lemma eSW : tid_eqb S W = false. Proof. apply roles_eqb. Qed.
Lemma eWB : tid_eqb W B = false. Proof. apply roles_eqb. Qed.
Lemma eBW : tid_eqb B W = false. Proof. apply roles_eqb. Qed.
Lemma eSB : tid_eqb S B = false. Proof. apply roles_eqb. Qed.
Lemma eBS : tid_eqb B S = false. Proof. apply roles_eqb. Qed.

Ltac pools :=
  cbn [flag owner out pool snd fst];
  repeat first
    [ rewrite thr_of_upd | rewrite thr_of_wake_all | rewrite tid_eqb_refl
    | rewrite eWS | rewrite eSW | rewrite eWB | rewrite eBW
    | rewrite eSB | rewrite eBS | rewrite snd_woken ];
  cbn [flag owner out pool snd fst].

Lemma inv_spurious (t : tid) (s : state) (l : label) (s' : state) :
  monitor_inv prog W S B post s ->
  exec (Spurious t) s = Some (l, s') ->
  monitor_inv prog W S B post s'.
Proof.
  intros (HS & HW & HB) He. simpl in He.
  destruct (pool s t) as [[[] c]|] eqn:Ep; try discriminate.
  inversion He; subst; clear He.
  pose proof (thr_of_some prog _ _ _ Ep) as Et.
  unfold monitor_inv.
  destruct (Hall t) as [-> | [-> | ->]]; pools.
  - split; [exact HS|]. split; [|exact HB].
    rewrite Et in HW. apply waiter_shape_woken in HW. exact HW.
  - rewrite Et in HS. split; [exact HS|]. split; assumption.
  - rewrite Et in HB. split; [exact HS|]. split; assumption.
Qed.


Lemma inv_run_signaller (s : state) (l : label) (s' : state) :
  monitor_inv prog W S B post s ->
  exec (Run S) s = Some (l, s') ->
  monitor_inv prog W S B post s'.
Proof.
  intros (HS & HW & HB) He. simpl in He.
  destruct (pool s S) as [[ws [|i c]]|] eqn:Ep; try discriminate.
  rewrite (thr_of_some prog _ _ _ Ep) in HS. simpl in HS.
  inversion HS as [p Hp Hf Hc | Hf Hc | Hf Hc]; subst.
  - destruct p as [|j p]; simpl in Hc; injection Hc as Hi Hc; subst i c.
    + inversion He; subst; clear He. unfold monitor_inv. pools.
      split; [now apply sig_set|]. split; [|exact HB].
      eapply waiter_shape_set; exact HW.
    + inversion Hp as [|? ? Hj Hp']; subst.
      destruct j; try contradiction;
        inversion He; subst; clear He; unfold monitor_inv; pools;
        (split; [now apply sig_before|]); split; assumption.
  - inversion He; subst; clear He. unfold monitor_inv. pools.
    split; [now apply sig_done|]. split; [|exact HB].
    now apply waiter_shape_woken.
Qed.

Lemma inv_run_bystander (s : state) (l : label) (s' : state) :
  monitor_inv prog W S B post s ->
  exec (Run B) s = Some (l, s') ->
  monitor_inv prog W S B post s'.
Proof.
  intros (HS & HW & HB) He. simpl in He.
  destruct (pool s B) as [[ws [|i c]]|] eqn:Ep; try discriminate.
  rewrite (thr_of_some prog _ _ _ Ep) in HB. simpl in HB.
  inversion HB as [|? ? Hi Hc]; subst.
  destruct i; try contradiction.
  - inversion He; subst; clear He. unfold monitor_inv. pools. tauto.
  - inversion He; subst; clear He. unfold monitor_inv. pools. tauto.
  - simpl in Hi. subst body.
    destruct (pool s t) eqn:Et; try discriminate.
    inversion He; subst; clear He. unfold monitor_inv. pools.
    destruct (Hall t) as [-> | [-> | ->]]; pools.
    + rewrite (thr_of_none prog _ _ Et) in HW. tauto.
    + rewrite (thr_of_none prog _ _ Et) in HS. tauto.
    + congruence.
Qed.

Lemma inv_run_waiter (s : state) (l : label) (s' : state) :
  monitor_inv prog W S B post s ->
  exec (Run W) s = Some (l, s') ->
  monitor_inv prog W S B post s'.
Proof.
  intros (HS & HW & HB) He. simpl in He.
  destruct (pool s W) as [[ws [|i c]]|] eqn:Ep; try discriminate.
  rewrite (thr_of_some prog _ _ _ Ep) in HW.
  remember (ws, i :: c) as th eqn:Eth.
  destruct HW as [ws' p Hp Ho | ws' Ho | ws' q Hq Hf Ho | ws' Hf Ho];
    [injection Eth as Hws Hc | injection Eth as Hws Hi Hc
     | injection Eth as Hws Hc | discriminate Eth]; subst ws'.
  - destruct p as [|j p]; simpl in Hc; injection Hc as Hi Hc; subst i c.
    + rewrite Ho in He. inversion He; subst; clear He.
      unfold monitor_inv. pools. split; [exact HS|]. split; [|exact HB].
      now apply w_wait.
    + inversion Hp as [|? ? Hj Hp']; subst.
      destruct j; try contradiction.
      * inversion He; subst; clear He. unfold monitor_inv. pools.
        split; [exact HS|]. split; [|exact HB]. now apply w_pre.
      * inversion He; subst; clear He. unfold monitor_inv. pools.
        split; [exact HS|]. split; [|exact HB]. now apply w_pre.
      * simpl in Hj. subst body.
        destruct (pool s t) eqn:Et; try discriminate.
        inversion He; subst; clear He. unfold monitor_inv. pools.
        destruct (Hall t) as [-> | [-> | ->]]; pools.
        -- congruence.
        -- rewrite (thr_of_none prog _ _ Et) in HS.
           split; [exact HS|]. split; [|exact HB]. now apply w_pre.
        -- rewrite (thr_of_none prog _ _ Et) in HB.
           split; [exact HS|]. split; [|exact HB]. now apply w_pre.
  - subst i c.
    destruct ws; simpl in Ho; try discriminate He;
      try (destruct (flag s) eqn:Hf); try rewrite Ho in He;
      inversion He; subst; clear He; unfold monitor_inv; pools;
      (split; [exact HS|]); (split; [|exact HB]);
      first [ now apply w_wait | now apply w_post ].
  - destruct q as [|j q]; simpl in Hc; injection Hc as Hi Hc; subst i c.
    + rewrite Ho, tid_eqb_refl in He. inversion He; subst; clear He.
      unfold monitor_inv. pools.
      split; [exact HS|]. split; [|exact HB]. now apply w_done.
    + inversion Hq as [|? ? Hj Hq']; subst.
      destruct j; try contradiction;
        inversion He; subst; clear He; unfold monitor_inv; pools;
        (split; [exact HS|]); (split; [|exact HB]); now apply w_post.
Qed.

(** Every step preserves the invariant. *)
Lemma inv_step (ch : choice) (s : state) (l : label) (s' : state) :
  monitor_inv prog W S B post s ->
  exec ch s = Some (l, s') ->
  monitor_inv prog W S B post s'.
Proof.
  intros Hinv He. destruct ch as [t|t].
  - destruct (Hall t) as [-> | [-> | ->]].
    + eapply inv_run_waiter; eassumption.
    + eapply inv_run_signaller; eassumption.
    + eapply inv_run_bystander; eassumption.
  - eapply inv_spurious; eassumption.
Qed.

Lemma inv_run (sched : list choice) :
  forall (s : state) (tr : list (tid * label)) (s' : state),
    monitor_inv prog W S B post s ->
    run sched s = Some (tr, s') ->
    monitor_inv prog W S B post s'.
Proof.
  induction sched as [|ch rest IH]; intros s tr s' Hinv Hr; simpl in Hr.
  - inversion Hr; subst. exact Hinv.
  - destruct (exec ch s) as [[l s1]|] eqn:He; try discriminate.
    destruct (run rest s1) as [[tr1 s2]|] eqn:Hr1; try discriminate.
    inversion Hr; subst. eapply IH; [|exact Hr1].
    eapply inv_step; eassumption.
Qed.

(** Under the invariant only the waiter stands at a wait loop, and only the
    signaller at an assignment to the flag. *)
Lemma inv_head_wait (s : state) (t : tid) (ws : wstate) (c : list instr) :
  monitor_inv prog W S B post s ->
  pool s t = Some (ws, WaitLoop :: c) ->
  t = W /\ owner s = (if holds ws then Some W else None).
Proof.
  intros (HS & HW & HB) Ep.
  pose proof (thr_of_some prog _ _ _ Ep) as Et.
  destruct (Hall t) as [-> | [-> | ->]].
  - rewrite Et in HW. remember (ws, WaitLoop :: c) as th eqn:Eth.
    destruct HW as [ws' p Hp Ho | ws' Ho | ws' q Hq Hf Ho | ws' Hf Ho];
      [injection Eth as Hws Hc | injection Eth as Hws Hc
       | injection Eth as Hws Hc | discriminate Eth]; subst ws'.
    + destruct p as [|j p]; simpl in Hc; [discriminate|].
      injection Hc as Hj Hc. subst j. inversion Hp as [|? ? Hj Hp']. contradiction.
    + auto.
    + destruct q as [|j q]; simpl in Hc; [discriminate|].
      injection Hc as Hj Hc. subst j. inversion Hq as [|? ? Hj Hq']. contradiction.
  - rewrite Et in HS. simpl in HS.
    inversion HS as [p Hp Hf Hc | Hf Hc | Hf Hc].
    destruct p as [|j p]; simpl in Hc; [discriminate|].
    injection Hc as Hj Hc. subst j. inversion Hp as [|? ? Hj Hp']. contradiction.
  - rewrite Et in HB. simpl in HB. inversion HB as [|? ? Hj Hb']. contradiction.
Qed.

Lemma inv_head_set (s : state) (t : tid) (ws : wstate) (b : bool)
      (c : list instr) :
  monitor_inv prog W S B post s ->
  pool s t = Some (ws, SetFlag b :: c) ->
  t = S /\ b = true /\ c = [NotifyAll] /\ flag s = false.
Proof.
  intros (HS & HW & HB) Ep.
  pose proof (thr_of_some prog _ _ _ Ep) as Et.
  destruct (Hall t) as [-> | [-> | ->]].
  - rewrite Et in HW. remember (ws, SetFlag b :: c) as th eqn:Eth.
    destruct HW as [ws' p Hp Ho | ws' Ho | ws' q Hq Hf Ho | ws' Hf Ho];
      [injection Eth as Hws Hc | discriminate Eth
       | injection Eth as Hws Hc | discriminate Eth]; subst ws'.
    + destruct p as [|j p]; simpl in Hc; [discriminate|].
      injection Hc as Hj Hc. subst j. inversion Hp as [|? ? Hj Hp']. contradiction.
    + destruct q as [|j q]; simpl in Hc; [discriminate|].
      injection Hc as Hj Hc. subst j. inversion Hq as [|? ? Hj Hq']. contradiction.
  - rewrite Et in HS. simpl in HS.
    inversion HS as [p Hp Hf Hc | Hf Hc | Hf Hc].
    destruct p as [|j p]; simpl in Hc.
    + injection Hc as Hb Hc. auto.
    + injection Hc as Hj Hc. subst j. inversion Hp as [|? ? Hj Hp']. contradiction.
  - rewrite Et in HB. simpl in HB. inversion HB as [|? ? Hj Hb']. contradiction.
Qed.

(** The mutex is free or held by the waiter. *)
Lemma inv_owner (s : state) :
  monitor_inv prog W S B post s -> owner s = None \/ owner s = Some W.
Proof.
  intros (_ & HW & _).
  destruct HW as [ws' p Hp Ho | ws' Ho | ws' q Hq Hf Ho | ws' Hf Ho]; auto.
  destruct (holds ws'); auto.
Qed.

(** Reads of the flag are taken by the waiter while it holds the mutex. *)
Lemma inv_read (ch : choice) (s : state) (b : bool) (s' : state) :
  monitor_inv prog W S B post s ->
  exec ch s = Some (LRead b, s') ->
  ch = Run W /\ owner s = Some W /\ b = flag s.
Proof.
  intros Hinv He.
  destruct (exec_read _ _ _ _ He) as (t & ws & c & -> & Ep & Hh & ->).
  destruct (inv_head_wait _ _ _ _ Hinv Ep) as [-> Ho].
  rewrite Hh in Ho. auto.
Qed.

(** The one write of the flag: by the signaller, of the value true, while
    the flag is false and the signaller does not hold the mutex; the
    notification is what the signaller runs next. *)
Lemma inv_write (ch : choice) (s : state) (b : bool) (s' : state) :
  monitor_inv prog W S B post s ->
  exec ch s = Some (LWrite b, s') ->
  ch = Run S /\ b = true /\ flag s = false /\ owner s <> Some S
  /\ snd (thr_of prog (pool s') S) = [NotifyAll]
  /\ owner s' = owner s.
Proof.
  intros Hinv He.
  destruct (exec_write _ _ _ _ He) as (t & ws & c & -> & Ep & ->).
  destruct (inv_head_set _ _ _ _ _ Hinv Ep) as (-> & -> & -> & Hf).
  repeat split; auto.
  - destruct (inv_owner _ Hinv) as [Ho | Ho]; rewrite Ho; congruence.
  - pools. reflexivity.
Qed.

(** Once true, the flag stays true. *)
Lemma inv_flag_stays (ch : choice) (s : state) (l : label) (s' : state) :
  monitor_inv prog W S B post s ->
  exec ch s = Some (l, s') ->
  flag s = true -> flag s' = true.
Proof.
  intros Hinv He Hf.
  destruct (exec_flag _ _ _ _ He) as [E | E]; [congruence|].
  subst l. destruct (inv_write _ _ _ _ Hinv He) as (_ & Hb & _). exact Hb.
Qed.

(** Along an execution that starts with the flag true, the flag stays true
    and never rises; along one that starts with the flag false, it rises
    once if it ends true, and never otherwise. *)
Lemma inv_rises (sched : list choice) :
  forall (s : state) (tr : list (tid * label)) (s' : state),
    monitor_inv prog W S B post s ->
    run sched s = Some (tr, s') ->
    if flag s then flag s' = true /\ rises sched s = 0%nat
    else rises sched s = (if flag s' then 1 else 0)%nat.
Proof.
  induction sched as [|ch rest IH]; intros s tr s' Hinv Hr; simpl in *.
  - inversion Hr; subst. destruct (flag s'); auto.
  - destruct (exec ch s) as [[l s1]|] eqn:He; try discriminate.
    destruct (run rest s1) as [[tr1 s2]|] eqn:Hr1; try discriminate.
    inversion Hr; subst.
    pose proof (inv_step _ _ _ _ Hinv He) as Hinv1.
    specialize (IH _ _ _ Hinv1 Hr1).
    destruct (flag s) eqn:Hf; simpl.
    + rewrite (inv_flag_stays _ _ _ _ Hinv He Hf) in IH. exact IH.
    + destruct (flag s1); simpl.
      * destruct IH as [-> ->]. reflexivity.
      * exact IH.
Qed.

(** The signaller is never blocked: as long as it has code left, it can
    take a step. *)
Lemma inv_signaller_enabled (s : state) (ws : wstate) (i : instr)
      (c : list instr) :
  monitor_inv prog W S B post s ->
  pool s S = Some (ws, i :: c) ->
  exists l s', exec (Run S) s = Some (l, s').
Proof.
  intros (HS & _) Ep. rewrite (thr_of_some prog _ _ _ Ep) in HS. simpl in HS.
  simpl. rewrite Ep.
  inversion HS as [p Hp Hf Hc | Hf Hc | Hf Hc].
  - destruct p as [|j p]; simpl in Hc; injection Hc as Hi Hc; subst i.
    + eauto.
    + inversion Hp as [|? ? Hj Hp']. destruct j; try contradiction; eauto.
  - eauto.
Qed.

(** When the signaller has run to its end, the flag is true. *)
Lemma inv_signaller_done (s : state) (ws : wstate) :
  monitor_inv prog W S B post s ->
  pool s S = Some (ws, []) -> flag s = true.
Proof.
  intros (HS & _) Ep. rewrite (thr_of_some prog _ _ _ Ep) in HS. simpl in HS.
  inversion HS as [p Hp Hf Hc | Hf Hc | Hf Hc]; auto.
  destruct p; discriminate.
Qed.

(** Under the invariant a thread is created with its own program, so a step
    of one thread leaves the remaining code of the others as it is. *)
Lemma inv_head_spawn (s : state) (u : tid) (ws : wstate) (t : tid)
      (body c : list instr) :
  monitor_inv prog W S B post s ->
  pool s u = Some (ws, Spawn t body :: c) ->
  body = prog t.
Proof.
  intros (HS & HW & HB) Ep.
  pose proof (thr_of_some prog _ _ _ Ep) as Et.
  destruct (Hall u) as [-> | [-> | ->]].
  - rewrite Et in HW. remember (ws, Spawn t body :: c) as th eqn:Eth.
    destruct HW as [ws' p Hp Ho | ws' Ho | ws' q Hq Hf Ho | ws' Hf Ho];
      [injection Eth as Hws Hc | discriminate Eth
       | injection Eth as Hws Hc | discriminate Eth]; subst ws'.
    + destruct p as [|j p]; simpl in Hc; [discriminate|].
      injection Hc as Hj Hc. subst j. inversion Hp as [|? ? Hj Hp']. exact Hj.
    + destruct q as [|j q]; simpl in Hc; [discriminate|].
      injection Hc as Hj Hc. subst j. inversion Hq as [|? ? Hj Hq']. contradiction.
  - rewrite Et in HS. simpl in HS.
    inversion HS as [p Hp Hf Hc | Hf Hc | Hf Hc].
    destruct p as [|j p]; simpl in Hc; [discriminate|].
    injection Hc as Hj Hc. subst j. inversion Hp as [|? ? Hj Hp']. contradiction.
  - rewrite Et in HB. simpl in HB. inversion HB as [|? ? Hj Hb']. exact Hj.
Qed.

Lemma inv_code_other (ch : choice) (s : state) (l : label) (s' : state)
      (t : tid) :
  monitor_inv prog W S B post s ->
  exec ch s = Some (l, s') ->
  t <> actor ch ->
  snd (thr_of prog (pool s') t) = snd (thr_of prog (pool s) t).
Proof.
  intros Hinv He Hne.
  destruct (pool s t) as [[ws c]|] eqn:Ep.
  - destruct (exec_pool_other _ _ _ _ _ _ _ He Hne Ep) as [ws' Ep'].
    now rewrite (thr_of_some prog _ _ _ Ep), (thr_of_some prog _ _ _ Ep').
  - rewrite (thr_of_none prog _ _ Ep).
    destruct (exec_pool_none _ _ _ _ _ He Ep)
      as [Ep' | (ws & c & body & Eu & Ep')].
    + now rewrite (thr_of_none prog _ _ Ep').
    + rewrite (thr_of_some prog _ _ _ Ep'). simpl.
      eapply inv_head_spawn; eassumption.
Qed.

(** The bystander only writes, sleeps and creates threads. *)
Lemma inv_bystander_step (s : state) (l : label) (s' : state) :
  monitor_inv prog W S B post s ->
  exec (Run B) s = Some (l, s') ->
  monitor_label l = false /\ owner s <> Some B.
Proof.
  intros Hinv He. split.
  - destruct Hinv as (_ & _ & HB). simpl in He.
    destruct (pool s B) as [[ws [|i c]]|] eqn:Ep; try discriminate.
    rewrite (thr_of_some prog _ _ _ Ep) in HB. simpl in HB.
    inversion HB as [|? ? Hi Hc]; subst.
    destruct i; try contradiction.
    + now inversion He.
    + now inversion He.
    + destruct (pool s t); try discriminate. now inversion He.
  - destruct (inv_owner _ Hinv) as [Ho | Ho]; rewrite Ho; congruence.
Qed.

(** While the signaller still writes characters, the flag is false. *)
Lemma inv_signaller_writes (ch : choice) (s : state) (l : label) (s' : state) :
  monitor_inv prog W S B post s ->
  exec ch s = Some (l, s') ->
  actor ch = S -> written l <> [] ->
  flag s = false.
Proof.
  intros (HS & _) He Ha Hw.
  destruct ch as [u|u]; simpl in Ha; subst u; simpl in He.
  - destruct (pool s S) as [[ws [|i c]]|] eqn:Ep; try discriminate.
    rewrite (thr_of_some prog _ _ _ Ep) in HS. simpl in HS.
    inversion HS as [p Hp Hf Hc | Hf Hc | Hf Hc]; auto.
    subst i. inversion He; subst. now elim Hw.
  - destruct (pool s S) as [[[] c]|]; try discriminate.
    inversion He; subst. now elim Hw.
Qed.

(** The waiter leaves its wait loop only by reading the flag as true, with
    the mutex in its hands. *)
Lemma inv_leave_wait (ch : choice) (s : state) (l : label) (s' : state) :
  monitor_inv prog W S B post s ->
  exec ch s = Some (l, s') ->
  past_wait prog s' W ->
  past_wait prog s W
  \/ (ch = Run W /\ l = LRead true /\ flag s = true /\ owner s = Some W).
Proof.
  intros Hinv He Hpast. unfold past_wait in *.
  destruct ch as [u|u].
  - destruct (tid_eqb W u) eqn:Eu.
    + apply tid_eqb_eq in Eu. subst u.
      pose proof He as He0. simpl in He0.
      destruct (pool s W) as [[ws [|i c]]|] eqn:Ep; try discriminate.
      clear He0.
      assert (Hi : i = WaitLoop \/ i <> WaitLoop)
        by (destruct i; auto; right; discriminate).
      destruct Hi as [-> | Hi].
      * assert (Hw : at_wait s W c) by (now exists ws).
        destruct (wait_step _ _ _ _ _ _ Hw He)
          as [[ws' Ep'] | (_ & -> & Hf & Ep0 & _)].
        -- rewrite (thr_of_some prog _ _ _ Ep') in Hpast.
           elim Hpast. now left.
        -- right. destruct (inv_head_wait _ _ _ _ Hinv Ep0) as [_ Ho]. auto.
      * left. rewrite (exec_code_actor prog _ _ _ _ _ _ _ He Ep Hi) in Hpast.
        rewrite (thr_of_some prog _ _ _ Ep). simpl.
        intros [E | E]; [congruence | contradiction].
    + left. rewrite <- (inv_code_other _ _ _ _ W Hinv He); [exact Hpast|].
      simpl. intros <-. now rewrite tid_eqb_refl in Eu.
  - destruct (tid_eqb W u) eqn:Eu.
    + apply tid_eqb_eq in Eu. subst u. left. simpl in He.
      destruct (pool s W) as [[[] c]|] eqn:Ep; try discriminate.
      inversion He; subst; clear He. simpl in Hpast.
      rewrite thr_of_upd, tid_eqb_refl in Hpast.
      now rewrite (thr_of_some prog _ _ _ Ep).
    + left. rewrite <- (inv_code_other _ _ _ _ W Hinv He); [exact Hpast|].
      simpl. intros <-. now rewrite tid_eqb_refl in Eu.
Qed.

Lemma inv_leave_wait_run (sched : list choice) :
  forall (s : state) (tr : list (tid * label)) (s' : state),
    monitor_inv prog W S B post s ->
    run sched s = Some (tr, s') ->
    past_wait prog s' W ->
    past_wait prog s W
    \/ exists before after tr1 s1 s2,
         sched = before ++ Run W :: after
         /\ run before s = Some (tr1, s1)
         /\ flag s1 = true /\ owner s1 = Some W
         /\ exec (Run W) s1 = Some (LRead true, s2).
Proof.
  induction sched as [|ch rest IH]; intros s tr s' Hinv Hr Hpast; simpl in Hr.
  - inversion Hr; subst. now left.
  - destruct (exec ch s) as [[l s1]|] eqn:He; try discriminate.
    destruct (run rest s1) as [[tr1 s2]|] eqn:Hr1; try discriminate.
    inversion Hr; subst; clear Hr.
    pose proof (inv_step _ _ _ _ Hinv He) as Hinv1.
    destruct (IH _ _ _ Hinv1 Hr1 Hpast)
      as [Hp1 | (before & after & tr0 & sa & sb & -> & Hb & Hf & Ho & Hx)].
    + destruct (inv_leave_wait _ _ _ _ Hinv He Hp1)
        as [Hp | (-> & -> & Hf & Ho)].
      * now left.
      * right. exists [], rest, [], s, s1. simpl. auto.
    + right. exists (ch :: before), after, ((actor ch, l) :: tr0), sa, sb.
      simpl. rewrite He, Hb. auto.
Qed.

End Invariant.
(** ** The invariant holds in both demos *)

Lemma plain_cout (s : text) : Forall plain (cout s).
Proof. induction s as [|c s IH]; simpl; constructor; simpl; auto. Qed.

Lemma plain_display (t : text) (d : Z) : Forall plain (displayTextSlowly t d).
Proof.
  induction t as [|c t IH]; simpl; [constructor|].
  repeat constructor. exact IH.
Qed.

Lemma inert_of_plain (prog : tid -> list instr) (p : list instr) :
  Forall plain p -> Forall (inert prog) p.
Proof. apply Forall_impl. apply plain_inert. Qed.

Lemma demo_roles (d : demo) :
  waiter d <> signaller d /\ waiter d <> bystander d
  /\ signaller d <> bystander d
  /\ forall t, t = waiter d \/ t = signaller d \/ t = bystander d.
Proof.
  destruct d; simpl; repeat split; try discriminate;
    intros []; auto.
Qed.

Lemma after_wait_plain (d : demo) (hamlet : text) :
  Forall plain (after_wait d hamlet).
Proof.
  destruct d; cbn [after_wait].
  - repeat constructor.
  - apply Forall_app. split; [apply plain_cout | apply plain_display].
Qed.

Lemma demo_inv_start (d : demo) (rock hamlet : text) :
  monitor_inv (demo_prog d rock hamlet) (waiter d) (signaller d)
              (bystander d) (after_wait d hamlet) (demo_start d rock hamlet).
Proof.
  unfold monitor_inv, demo_start, start, thr_of. cbn [flag owner pool].
  destruct d; cbn [waiter signaller bystander demo_prog after_wait snd].
  - split; [|split].
    + unfold race_threadB. rewrite app_assoc. apply sig_before; [|reflexivity].
      apply Forall_app. split; [apply plain_cout | apply plain_display].
    + unfold raceTest.
      change ([Spawn TA (race_threadA rock); Spawn TB (race_threadB hamlet);
               Lock; WaitLoop; SleepFor MAIN_WAIT] ++ cout [nl] ++ [Unlock])
        with ([Spawn TA (race_threadA rock); Spawn TB (race_threadB hamlet)]
              ++ Lock :: WaitLoop :: (SleepFor MAIN_WAIT :: cout [nl]) ++ [Unlock]).
      rewrite app_assoc. apply w_pre; [|reflexivity].
      apply Forall_app. split.
      * apply inert_of_plain, plain_cout.
      * repeat constructor.
    + apply inert_of_plain. unfold race_threadA.
      apply Forall_app. split; [apply plain_cout | apply plain_display].
  - split; [|split].
    + unfold monitor_threadA.
      change [Putchar nl; SetFlag true; NotifyAll]
        with ([Putchar nl] ++ [SetFlag true; NotifyAll]).
      rewrite !app_assoc. apply sig_before; [|reflexivity].
      rewrite <- app_assoc.
      apply Forall_app. split; [apply plain_cout|].
      apply Forall_app. split; [apply plain_display|].
      repeat constructor.
    + unfold monitor_threadB.
      change ([Lock; WaitLoop] ++ cout hamlet_banner
              ++ displayTextSlowly hamlet TEXT_DELAY ++ [Unlock])
        with ([] ++ Lock :: WaitLoop :: cout hamlet_banner
              ++ displayTextSlowly hamlet TEXT_DELAY ++ [Unlock]).
      rewrite (app_assoc (cout hamlet_banner)).
      apply w_pre; [constructor | reflexivity].
    + unfold monitorTest.
      apply Forall_app. split; [apply inert_of_plain, plain_cout|].
      apply Forall_app. split; [|apply inert_of_plain, plain_cout].
      repeat constructor.
Qed.

(** The invariant holds in every state a demo can reach. *)
Lemma demo_inv (d : demo) (rock hamlet : text) (sched : list choice)
      (tr : list (tid * label)) (s : state) :
  run sched (demo_start d rock hamlet) = Some (tr, s) ->
  monitor_inv (demo_prog d rock hamlet) (waiter d) (signaller d)
              (bystander d) (after_wait d hamlet) s.
Proof.
  destruct (demo_roles d) as (H1 & H2 & H3 & H4).
  apply inv_run; auto using after_wait_plain, demo_inv_start.
Qed.

(** ** The order of the output of [monitorTest] *)

Lemma out_but_app (t : tid) (a b : list (tid * ascii)) :
  out_but t (a ++ b) = out_but t a ++ out_but t b.
Proof. apply filter_app. Qed.

Lemma chars_monitor_threadA (rock : text) :
  chars (monitor_threadA rock) = rock_banner ++ rock ++ [nl].
Proof.
  unfold monitor_threadA.
  rewrite !chars_app, chars_cout, chars_display. reflexivity.
Qed.

Lemma chars_monitor_threadB (hamlet : text) :
  chars (monitor_threadB hamlet) = hamlet_banner ++ hamlet.
Proof.
  unfold monitor_threadB.
  rewrite !chars_app, chars_cout, chars_display.
  simpl. now rewrite app_nil_r.
Qed.

Lemma chars_after_wait_monitor (hamlet : text) :
  chars (after_wait MonitorDemo hamlet ++ [Unlock]) = hamlet_banner ++ hamlet.
Proof.
  cbn [after_wait]. rewrite !chars_app, chars_cout, chars_display.
  simpl. now rewrite app_nil_r.
Qed.

(** While the flag is false the second thread has written nothing. *)
Lemma nothing_before_flag (rock hamlet : text) (s : state) (lb : text) :
  monitor_inv (demo_prog MonitorDemo rock hamlet) TB TA Main
              (after_wait MonitorDemo hamlet) s ->
  lb ++ chars (snd (thr_of (demo_prog MonitorDemo rock hamlet) (pool s) TB))
  = chars (monitor_threadB hamlet) ->
  flag s = false ->
  lb = [].
Proof.
  intros (_ & HW & _) Hlb Hf.
  rewrite chars_monitor_threadB, <- chars_after_wait_monitor in Hlb.
  destruct HW as [ws p Hp Ho | ws Ho | ws q Hq Hf' Ho | ws Hf' Ho];
    try congruence; cbn [snd] in Hlb.
  - change (p ++ Lock :: WaitLoop :: after_wait MonitorDemo hamlet ++ [Unlock])
      with (p ++ [Lock; WaitLoop] ++ after_wait MonitorDemo hamlet ++ [Unlock])
      in Hlb.
    rewrite !chars_app in Hlb. simpl (chars [Lock; WaitLoop]) in Hlb.
    rewrite app_nil_l, <- chars_app, app_assoc in Hlb.
    apply (app_inv_tail _ _ []) in Hlb.
    now apply app_eq_nil in Hlb.
  - change (WaitLoop :: after_wait MonitorDemo hamlet ++ [Unlock])
      with ([WaitLoop] ++ after_wait MonitorDemo hamlet ++ [Unlock]) in Hlb.
    rewrite (chars_app [WaitLoop]) in Hlb. simpl (chars [WaitLoop]) in Hlb.
    rewrite app_nil_l in Hlb.
    now apply (app_inv_tail _ _ []) in Hlb.
Qed.

Lemma out_but_same (t : tid) (e : text) :
  out_but t (map (pair t) e) = [].
Proof.
  induction e as [|c e IH]; simpl; [reflexivity|].
  now rewrite tid_eqb_refl.
Qed.

Lemma out_but_other (t u : tid) (e : text) :
  u <> t -> out_but t (map (pair u) e) = map (pair u) e.
Proof.
  intros Hne. induction e as [|c e IH]; simpl; [reflexivity|].
  rewrite (tid_eqb_neq _ _ Hne). simpl. now rewrite IH.
Qed.

(** Every step keeps the output of the two threads in order. *)
Lemma ordered_step (rock hamlet : text) (ch : choice) (s : state) (l : label)
      (s' : state) :
  monitor_inv (demo_prog MonitorDemo rock hamlet) TB TA Main
              (after_wait MonitorDemo hamlet) s ->
  ordered_output rock hamlet s ->
  exec ch s = Some (l, s') ->
  ordered_output rock hamlet s'.
Proof.
  intros Hinv (la & lb & Ho & Ha & Hb) He.
  destruct (demo_roles MonitorDemo) as (H1 & H2 & H3 & H4).
  cbn [waiter signaller bystander] in H1, H2, H3, H4.
  pose proof (exec_out _ _ _ _ He) as Hout.
  pose proof (exec_chars_actor (demo_prog MonitorDemo rock hamlet) _ _ _ _ He)
    as Hact.
  assert (Hoth : forall t, t <> actor ch ->
            snd (thr_of (demo_prog MonitorDemo rock hamlet) (pool s') t)
            = snd (thr_of (demo_prog MonitorDemo rock hamlet) (pool s) t)).
  { intros t Ht.
    eapply (inv_code_other _ TB TA Main); eauto using after_wait_plain. }
  unfold ordered_output. rewrite Hout, out_but_app, Ho.
  destruct (actor ch) eqn:Eact.
  - (* the orchestrating thread: its output is not counted *)
    exists la, lb. rewrite !Hoth by discriminate.
    rewrite out_but_same, app_nil_r. auto.
  - (* the first thread *)
    rewrite (Hoth TB) by discriminate. rewrite Hact in Ha.
    rewrite out_but_other by discriminate.
    destruct (written l) as [|c e] eqn:Ew.
    + exists la, lb. simpl. rewrite app_nil_r. auto.
    + (* it writes a character: the flag is still false *)
      assert (Hf : flag s = false).
      { eapply (inv_signaller_writes _ TB TA Main); eauto.
        rewrite Ew. discriminate. }
      pose proof (nothing_before_flag _ _ _ _ Hinv Hb Hf) as ->.
      exists (la ++ c :: e), []. cbn [map]. rewrite !app_nil_r, map_app.
      split; [reflexivity|]. split; [|exact Hb].
      rewrite <- app_assoc. exact Ha.
  - (* the second thread *)
    rewrite (Hoth TA) by discriminate. rewrite Hact in Hb.
    rewrite out_but_other by discriminate.
    exists la, (lb ++ written l). rewrite map_app, <- !app_assoc.
    split; [reflexivity|]. split; [exact Ha | exact Hb].
Qed.

Lemma ordered_start (rock hamlet : text) :
  ordered_output rock hamlet (demo_start MonitorDemo rock hamlet).
Proof. exists [], []. repeat split. Qed.

Lemma ordered_run (rock hamlet : text) (sched : list choice) :
  forall (s : state) (tr : list (tid * label)) (s' : state),
    monitor_inv (demo_prog MonitorDemo rock hamlet) TB TA Main
                (after_wait MonitorDemo hamlet) s ->
    ordered_output rock hamlet s ->
    run sched s = Some (tr, s') ->
    ordered_output rock hamlet s'.
Proof.
  destruct (demo_roles MonitorDemo) as (H1 & H2 & H3 & H4).
  cbn [waiter signaller bystander] in H1, H2, H3, H4.
  induction sched as [|ch rest IH]; intros s tr s' Hinv Ho Hr; simpl in Hr.
  - inversion Hr; subst. exact Ho.
  - destruct (exec ch s) as [[l s1]|] eqn:He; try discriminate.
    destruct (run rest s1) as [[tr1 s2]|] eqn:Hr1; try discriminate.
    inversion Hr; subst. eapply IH; [| |exact Hr1].
    + eapply (inv_step _ TB TA Main); eauto using after_wait_plain.
    + eapply ordered_step; eassumption.
Qed.

(** ** Some execution sets the flag *)

Lemma upd_same (t : tid) (th : thread) (p : tid -> option thread) :
  upd t th p t = Some th.
Proof. unfold upd. now rewrite tid_eqb_refl. Qed.

Lemma upd_other (t t' : tid) (th : thread) (p : tid -> option thread) :
  t' <> t -> upd t th p t' = p t'.
Proof. intros H. unfold upd. now rewrite (tid_eqb_neq _ _ H). Qed.

(** A thread runs through plain code with no help from the others. *)
Lemma run_plain (t : tid) (p : list instr) :
  Forall plain p ->
  forall (s : state) (ws : wstate) (c : list instr),
    pool s t = Some (ws, p ++ c) ->
    exists tr s' ws',
      run (repeat (Run t) (List.length p)) s = Some (tr, s')
      /\ flag s' = flag s /\ owner s' = owner s
      /\ pool s' t = Some (ws', c)
      /\ forall t', t' <> t -> pool s' t' = pool s t'.
Proof.
  induction 1 as [|i p Hi Hp IH]; intros s ws c Ep.
  - exists [], s, ws. simpl. auto.
  - assert (Hex : exists l s1,
               exec (Run t) s = Some (l, s1)
               /\ flag s1 = flag s /\ owner s1 = owner s
               /\ pool s1 = upd t (Ready, p ++ c) (pool s)).
    { simpl. simpl in Ep. rewrite Ep.
      destruct i; try contradiction; eexists; eexists; simpl; eauto. }
    destruct Hex as (l & s1 & He & Hf1 & Ho1 & Hp1).
    assert (Ep1 : pool s1 t = Some (Ready, p ++ c))
      by (rewrite Hp1; apply upd_same).
    destruct (IH _ _ _ Ep1) as (tr & s' & ws' & Hr & Hf & Ho & Ep' & Hoth).
    exists ((t, l) :: tr), s', ws'.
    cbn [List.length repeat run]. rewrite He, Hr. cbn [actor].
    repeat split; try congruence.
    intros t' Ht. rewrite (Hoth _ Ht), Hp1. now apply upd_other.
Qed.

(** Once created, the signaller can run on its own until it has set the
    flag. *)
Lemma run_signaller (t : tid) (p : list instr) (s : state) (ws : wstate) :
  Forall plain p ->
  pool s t = Some (ws, p ++ [SetFlag true; NotifyAll]) ->
  exists tr s',
    run (repeat (Run t) (List.length p) ++ [Run t]) s = Some (tr, s')
    /\ flag s' = true.
Proof.
  intros Hp Ep.
  destruct (run_plain t p Hp _ _ _ Ep) as (tr & s1 & ws1 & Hr & _ & _ & Ep1 & _).
  rewrite run_app, Hr. cbn [run exec]. rewrite Ep1.
  eexists. eexists. split; reflexivity.
Qed.

Lemma run_extend (a b : list choice) (s s1 : state) (tr1 : list (tid * label)) :
  run a s = Some (tr1, s1) ->
  (exists tr2 s2, run b s1 = Some (tr2, s2) /\ flag s2 = true) ->
  exists tr s2, run (a ++ b) s = Some (tr, s2) /\ flag s2 = true.
Proof.
  intros Ha (tr2 & s2 & Hb & Hf). rewrite run_app, Ha, Hb. eauto.
Qed.

(** In both demos there is an execution at the end of which the signaller
    has set the flag. *)
Lemma demo_flag_can_rise (d : demo) (rock hamlet : text) :
  exists sched tr s,
    run sched (demo_start d rock hamlet) = Some (tr, s) /\ flag s = true.
Proof.
  destruct d.
  - (* raceTest: banner, both threads created, then the second thread *)
    set (banner := cout (line_lit "Displaying texts with race conditions: ")).
    set (rest := [Lock; WaitLoop; SleepFor MAIN_WAIT] ++ cout [nl] ++ [Unlock]).
    assert (E0 : pool (demo_start RaceDemo rock hamlet) Main
                 = Some (Ready, banner ++ Spawn TA (race_threadA rock)
                                  :: Spawn TB (race_threadB hamlet) :: rest))
      by reflexivity.
    destruct (run_plain Main banner (plain_cout _) _ _ _ E0)
      as (tr1 & s1 & ws1 & Hr1 & _ & _ & Ep1 & Hoth1).
    pose proof (Hoth1 TA ltac:(discriminate)) as EA. simpl in EA.
    pose proof (Hoth1 TB ltac:(discriminate)) as EB. simpl in EB.
    set (p := cout hamlet_banner ++ displayTextSlowly hamlet TEXT_DELAY).
    assert (Hp : Forall plain p).
    { apply Forall_app. split; [apply plain_cout | apply plain_display]. }
    exists (repeat (Run Main) (List.length banner)
            ++ [Run Main; Run Main]
            ++ (repeat (Run TB) (List.length p) ++ [Run TB])).
    eapply run_extend; [exact Hr1|].
    cbn [app run exec]. rewrite Ep1, EA. cbn [pool flag owner out actor].
    rewrite upd_other by discriminate. rewrite upd_same.
    rewrite !upd_other by discriminate. rewrite EB.
    cbn [pool flag owner out actor].
    match goal with
    | |- context [run _ ?s2] =>
        destruct (run_signaller TB p s2 Ready Hp) as (tr3 & s3 & Hr3 & Hf3)
    end.
    { cbn [pool]. rewrite upd_same. unfold race_threadB, p.
      now rewrite app_assoc. }
    rewrite Hr3. eauto.
  - (* monitorTest: banner, first thread created, then the first thread *)
    set (banner :=
           cout (line_lit "Displaying texts in correct order with a monitor: ")).
    set (rest := [Spawn TB (monitor_threadB hamlet);
                  SleepFor (monitor_wait rock hamlet)] ++ cout [nl]).
    assert (E0 : pool (demo_start MonitorDemo rock hamlet) Main
                 = Some (Ready, banner ++ Spawn TA (monitor_threadA rock) :: rest))
      by reflexivity.
    destruct (run_plain Main banner (plain_cout _) _ _ _ E0)
      as (tr1 & s1 & ws1 & Hr1 & _ & _ & Ep1 & Hoth1).
    pose proof (Hoth1 TA ltac:(discriminate)) as EA. simpl in EA.
    set (p := cout rock_banner ++ displayTextSlowly rock TEXT_DELAY
              ++ [Putchar nl]).
    assert (Hp : Forall plain p).
    { apply Forall_app. split; [apply plain_cout|].
      apply Forall_app. split; [apply plain_display | repeat constructor]. }
    exists (repeat (Run Main) (List.length banner)
            ++ [Run Main]
            ++ (repeat (Run TA) (List.length p) ++ [Run TA])).
    eapply run_extend; [exact Hr1|].
    cbn [app run exec]. rewrite Ep1, EA. cbn [pool flag owner out actor].
    match goal with
    | |- context [run _ ?s2] =>
        destruct (run_signaller TA p s2 Ready Hp) as (tr3 & s3 & Hr3 & Hf3)
    end.
    { cbn [pool]. rewrite upd_same. unfold monitor_threadA, p.
      rewrite <- !app_assoc. reflexivity. }
    rewrite Hr3. eauto.
Qed.

(** ** The claims about the two demos *)

Lemma waiter_starts_before_wait (d : demo) (rock hamlet : text) :
  ~ past_wait (demo_prog d rock hamlet) (demo_start d rock hamlet) (waiter d).
Proof.
  unfold past_wait. intros H. apply H. clear H.
  destruct d; cbn [waiter demo_start start pool thr_of demo_prog snd].
  - unfold raceTest. apply in_or_app. right. simpl. auto.
  - unfold monitor_threadB. simpl. auto.
Qed.

(** C1.  In [monitorTest], whatever the schedule, the output of the two
    threads is some part [la] of what the first thread writes (its banner,
    the first text, a newline) followed by some part [lb] of what the second
    thread writes (its banner, the second text); and as soon as the second
    thread has written anything, the first has written everything. *)
Theorem monitor_output_in_order (rock hamlet : text) (sched : list choice)
        (tr : list (tid * label)) (s : state)
        (Hrun : run sched (demo_start MonitorDemo rock hamlet) = Some (tr, s)) :
  exists la lb ra rb,
    out_but Main (out s) = map (pair TA) la ++ map (pair TB) lb
    /\ la ++ ra = rock_banner ++ rock ++ [nl]
    /\ lb ++ rb = hamlet_banner ++ hamlet
    /\ (lb <> [] -> ra = []).
Proof.
  pose proof (demo_inv MonitorDemo _ _ _ _ _ Hrun) as Hinv.
  cbn [waiter signaller bystander] in Hinv.
  pose proof (ordered_run rock hamlet sched _ _ _
                (demo_inv_start MonitorDemo rock hamlet)
                (ordered_start rock hamlet) Hrun) as (la & lb & Ho & Ha & Hb).
  exists la, lb. eexists. eexists.
  split; [exact Ho|].
  rewrite chars_monitor_threadA in Ha. rewrite chars_monitor_threadB in Hb.
  split; [exact Ha|]. split; [exact Hb|].
  intros Hlb.
  destruct (flag s) eqn:Hf.
  - destruct Hinv as (HS & _).
    inversion HS as [p Hp Hf' Hc | Hf' Hc | Hf' Hc]; try congruence; reflexivity.
  - elim Hlb. eapply nothing_before_flag; [exact Hinv | | exact Hf].
    rewrite chars_monitor_threadB. exact Hb.
Qed.

Lemma monitor_output_in_order_witness :
  exists la lb ra rb,
    out_but Main (out (final_state sched_in_turn demo_AB_CD))
    = map (pair TA) la ++ map (pair TB) lb
    /\ la ++ ra = rock_banner ++ txt "AB" ++ [nl]
    /\ lb ++ rb = hamlet_banner ++ txt "CD"
    /\ (lb <> [] -> ra = []).
Proof.
  apply (monitor_output_in_order (txt "AB") (txt "CD") sched_in_turn
           (trace_of sched_in_turn demo_AB_CD)).
  vm_compute. reflexivity.
Defined.

(** C2.  In both demos, in every state an execution reaches: if the waiter
    has left its wait loop, then at some earlier point of the execution it
    read the flag, holding the mutex, while the flag was true; while the
    waiter is in the loop and the flag is false, no step takes it out of the
    loop; and when it is blocked there with the flag false, a wakeup makes it
    take the mutex, read the flag and block again. *)
Theorem waiter_proceeds_only_on_true (d : demo) (rock hamlet : text)
        (sched : list choice) (tr : list (tid * label)) (s : state)
        (Hrun : run sched (demo_start d rock hamlet) = Some (tr, s)) :
  (past_wait (demo_prog d rock hamlet) s (waiter d) ->
   exists before after tr1 s1 s2,
     sched = before ++ Run (waiter d) :: after
     /\ run before (demo_start d rock hamlet) = Some (tr1, s1)
     /\ flag s1 = true /\ owner s1 = Some (waiter d)
     /\ exec (Run (waiter d)) s1 = Some (LRead true, s2))
  /\ (forall ch l s',
        at_wait s (waiter d) (after_wait d hamlet ++ [Unlock]) ->
        flag s = false ->
        exec ch s = Some (l, s') ->
        at_wait s' (waiter d) (after_wait d hamlet ++ [Unlock]))
  /\ (pool s (waiter d)
      = Some (Blocked, WaitLoop :: after_wait d hamlet ++ [Unlock]) ->
      flag s = false ->
      exists s',
        run [Spurious (waiter d); Run (waiter d); Run (waiter d);
             Run (waiter d)] s
        = Some ([(waiter d, LWake); (waiter d, LReacquire);
                 (waiter d, LRead false); (waiter d, LBlock)], s')
        /\ pool s' (waiter d)
           = Some (Blocked, WaitLoop :: after_wait d hamlet ++ [Unlock])).
Proof.
  pose proof (demo_inv d _ _ _ _ _ Hrun) as Hinv.
  destruct (demo_roles d) as (H1 & H2 & H3 & H4).
  split; [|split].
  - intros Hpast.
    edestruct (inv_leave_wait_run (demo_prog d rock hamlet) (waiter d) (signaller d) (bystander d) (after_wait d hamlet)) as [H0 | H0];
      [exact H1 | exact H2 | exact H3 | exact H4 | apply after_wait_plain
       | apply demo_inv_start | exact Hrun | exact Hpast | | exact H0].
    now apply waiter_starts_before_wait in H0.
  - intros ch l s' Hw Hf He.
    destruct (wait_step _ _ _ _ _ _ Hw He) as [Hw' | (_ & _ & Hf' & _)];
      [exact Hw' | congruence].
  - intros Ep Hf.
    edestruct (inv_head_wait (demo_prog d rock hamlet) (waiter d) (signaller d) (bystander d) (after_wait d hamlet)) as [_ Ho]; eauto.
    simpl in Ho.
    destruct (wakeup_reenters _ _ _ Ep Hf Ho) as (s' & Hr & Ep' & _).
    exists s'. auto.
Qed.

Lemma waiter_proceeds_only_on_true_witness :
  (exists before after tr1 s1 s2,
     sched_in_turn = before ++ Run TB :: after
     /\ run before demo_AB_CD = Some (tr1, s1)
     /\ flag s1 = true /\ owner s1 = Some TB
     /\ exec (Run TB) s1 = Some (LRead true, s2))
  /\ (exists s',
        run [Spurious TB; Run TB; Run TB; Run TB]
            (final_state sched_until_blocked demo_AB_CD)
        = Some ([(TB, LWake); (TB, LReacquire); (TB, LRead false);
                 (TB, LBlock)], s')
        /\ pool s' TB
           = Some (Blocked,
                   WaitLoop :: after_wait MonitorDemo (txt "CD") ++ [Unlock])).
Proof.
  split.
  - apply (waiter_proceeds_only_on_true MonitorDemo (txt "AB") (txt "CD")
             sched_in_turn (trace_of sched_in_turn demo_AB_CD)
             (final_state sched_in_turn demo_AB_CD)).
    + vm_compute. reflexivity.
    + vm_compute. intros H. exact H.
  - apply (waiter_proceeds_only_on_true MonitorDemo (txt "AB") (txt "CD")
             sched_until_blocked (trace_of sched_until_blocked demo_AB_CD)
             (final_state sched_until_blocked demo_AB_CD)).
    + vm_compute. reflexivity.
    + vm_compute. reflexivity.
    + vm_compute. reflexivity.
Defined.

Lemma until_write_run :
  run sched_until_write demo_AB_CD
  = Some (trace_of sched_until_write demo_AB_CD,
          final_state sched_until_write demo_AB_CD).
Proof. vm_compute. reflexivity. Qed.

Lemma until_write_step :
  exec (Run TA) (final_state sched_until_write demo_AB_CD)
  = Some (LWrite true, final_state (sched_until_write ++ [Run TA]) demo_AB_CD).
Proof. vm_compute. reflexivity. Qed.

Lemma until_write_owner :
  owner (final_state sched_until_write demo_AB_CD) = None.
Proof. vm_compute. reflexivity. Qed.

(** C3.  The claim, that every read and every write of the flag is taken
    by a thread that holds the mutex, fails on the code.  In [monitorTest]
    on the texts "AB" and "CD", once the orchestrating thread has created
    both threads and the first thread has written its banner, its text and
    the newline, the first thread assigns the flag while the mutex is free:
    the assignment of the source is not under a lock. *)
Lemma flag_written_without_mutex :
  ~ flag_access_under_mutex demo_AB_CD.
Proof.
  intros H.
  specialize (H _ _ _ _ _ _ until_write_run until_write_step eq_refl).
  rewrite until_write_owner in H. discriminate H.
Qed.

(** What the code does with the flag.  In both demos the flag is read only
    by the waiter, while it holds the mutex; it is written only by the
    signaller (the second thread of [raceTest], the first of
    [monitorTest]), which writes true, does not hold the mutex, and has
    [notify_all] as its next operation. *)
Theorem flag_read_locked_written_unlocked (d : demo) (rock hamlet : text)
        (sched : list choice) (tr : list (tid * label)) (s : state)
        (ch : choice) (l : label) (s' : state)
        (Hrun : run sched (demo_start d rock hamlet) = Some (tr, s))
        (Hstep : exec ch s = Some (l, s')) :
  match l with
  | LRead b => ch = Run (waiter d) /\ owner s = Some (waiter d) /\ b = flag s
  | LWrite b =>
      ch = Run (signaller d) /\ b = true /\ owner s <> Some (signaller d)
      /\ snd (thr_of (demo_prog d rock hamlet) (pool s') (signaller d))
         = [NotifyAll]
  | _ => True
  end.
Proof.
  pose proof (demo_inv d _ _ _ _ _ Hrun) as Hinv.
  destruct (demo_roles d) as (H1 & H2 & H3 & H4).
  destruct l; try exact I.
  - edestruct (inv_write (demo_prog d rock hamlet) (waiter d) (signaller d) (bystander d) (after_wait d hamlet)) as (Hc & Hb & _ & Ho & Hn & _); eauto.
  - eapply (inv_read (demo_prog d rock hamlet) (waiter d) (signaller d) (bystander d) (after_wait d hamlet)); eauto.
Qed.

Lemma flag_read_locked_written_unlocked_witness :
  Run TA = Run (signaller MonitorDemo) /\ true = true
  /\ owner (final_state sched_until_write demo_AB_CD) <> Some (signaller MonitorDemo)
  /\ snd (thr_of (demo_prog MonitorDemo (txt "AB") (txt "CD"))
                 (pool (final_state (sched_until_write ++ [Run TA]) demo_AB_CD))
                 (signaller MonitorDemo))
     = [NotifyAll].
Proof.
  apply (flag_read_locked_written_unlocked MonitorDemo (txt "AB") (txt "CD")
           sched_until_write (trace_of sched_until_write demo_AB_CD)
           (final_state sched_until_write demo_AB_CD)
           (Run TA) (LWrite true)
           (final_state (sched_until_write ++ [Run TA]) demo_AB_CD)).
  - exact until_write_run.
  - exact until_write_step.
Defined.

(** C4.  In both demos the flag is false when the demo starts; along every
    execution it goes from false to true at most once, exactly once when the
    signaller has run to its end, and some execution does make it rise; no
    step takes it from true back to false, and every write of it writes
    true.  The signaller is never blocked on its way to the assignment. *)
Theorem flag_rises_once (d : demo) (rock hamlet : text)
        (sched : list choice) (tr : list (tid * label)) (s : state)
        (Hrun : run sched (demo_start d rock hamlet) = Some (tr, s)) :
  flag (demo_start d rock hamlet) = false
  /\ rises sched (demo_start d rock hamlet) = (if flag s then 1 else 0)%nat
  /\ (forall ws, pool s (signaller d) = Some (ws, []) ->
                 rises sched (demo_start d rock hamlet) = 1%nat)
  /\ (forall ch l s',
        exec ch s = Some (l, s') ->
        (flag s = true -> flag s' = true)
        /\ (forall b, l = LWrite b -> b = true /\ flag s = false))
  /\ (forall ws i c,
        pool s (signaller d) = Some (ws, i :: c) ->
        exists l s', exec (Run (signaller d)) s = Some (l, s'))
  /\ (exists sched1 tr1 s1,
        run sched1 (demo_start d rock hamlet) = Some (tr1, s1)
        /\ rises sched1 (demo_start d rock hamlet) = 1%nat).
Proof.
  pose proof (demo_inv d _ _ _ _ _ Hrun) as Hinv.
  destruct (demo_roles d) as (H1 & H2 & H3 & H4).
  assert (Hr : if flag (demo_start d rock hamlet)
               then flag s = true
                    /\ rises sched (demo_start d rock hamlet) = 0%nat
               else rises sched (demo_start d rock hamlet)
                    = (if flag s then 1 else 0)%nat)
    by (eapply (inv_rises (demo_prog d rock hamlet) (waiter d) (signaller d) (bystander d) (after_wait d hamlet));
        eauto using after_wait_plain, demo_inv_start).
  change (flag (demo_start d rock hamlet)) with false in Hr.
  split; [reflexivity|]. split; [exact Hr|]. split; [|split; [|split]].
  - intros ws Ep. rewrite Hr.
    erewrite (inv_signaller_done (demo_prog d rock hamlet) (waiter d) (signaller d) (bystander d) (after_wait d hamlet)); eauto.
  - intros ch l s' He. split.
    + eapply (inv_flag_stays (demo_prog d rock hamlet) (waiter d) (signaller d) (bystander d) (after_wait d hamlet));
        eauto using after_wait_plain.
    + intros b ->.
      edestruct (inv_write (demo_prog d rock hamlet) (waiter d) (signaller d) (bystander d) (after_wait d hamlet)) as (_ & Hb & Hf & _); eauto.
  - intros ws i c Ep.
    eapply (inv_signaller_enabled (demo_prog d rock hamlet) (waiter d) (signaller d) (bystander d) (after_wait d hamlet)); eauto.
  - destruct (demo_flag_can_rise d rock hamlet) as (sched1 & tr1 & s1 & Hr1 & Hf1).
    exists sched1, tr1, s1. split; [exact Hr1|].
    assert (Hr' : if flag (demo_start d rock hamlet)
                  then flag s1 = true
                       /\ rises sched1 (demo_start d rock hamlet) = 0%nat
                  else rises sched1 (demo_start d rock hamlet)
                       = (if flag s1 then 1 else 0)%nat)
      by (eapply (inv_rises (demo_prog d rock hamlet) (waiter d) (signaller d) (bystander d) (after_wait d hamlet));
          eauto using after_wait_plain, demo_inv_start).
    change (flag (demo_start d rock hamlet)) with false in Hr'.
    now rewrite Hf1 in Hr'.
Qed.

Lemma flag_rises_once_witness :
  flag demo_AB_CD = false
  /\ rises sched_in_turn demo_AB_CD
     = (if flag (final_state sched_in_turn demo_AB_CD) then 1 else 0)%nat
  /\ (forall ws, pool (final_state sched_in_turn demo_AB_CD) TA = Some (ws, []) ->
                 rises sched_in_turn demo_AB_CD = 1%nat)
  /\ (forall ch l s',
        exec ch (final_state sched_in_turn demo_AB_CD) = Some (l, s') ->
        (flag (final_state sched_in_turn demo_AB_CD) = true -> flag s' = true)
        /\ (forall b, l = LWrite b ->
                      b = true
                      /\ flag (final_state sched_in_turn demo_AB_CD) = false))
  /\ (forall ws i c,
        pool (final_state sched_in_turn demo_AB_CD) TA = Some (ws, i :: c) ->
        exists l s',
          exec (Run TA) (final_state sched_in_turn demo_AB_CD) = Some (l, s'))
  /\ (exists sched1 tr1 s1,
        run sched1 demo_AB_CD = Some (tr1, s1)
        /\ rises sched1 demo_AB_CD = 1%nat).
Proof.
  apply (flag_rises_once MonitorDemo (txt "AB") (txt "CD") sched_in_turn
           (trace_of sched_in_turn demo_AB_CD)).
  vm_compute. reflexivity.
Defined.

(** ** The orchestrating thread of [monitorTest], in every execution *)

(** C9.  The orchestrating thread of [monitorTest] sleeps once, for
    [MAIN_WAIT + (|rock_text| + |hamlet_text|) * TEXT_DELAY] milliseconds (as
    long as that fits the signed 64-bit count of [milliseconds]), then writes
    a newline and returns; its code has no operation on the flag, the mutex
    or the condition variable, and in every execution each of its steps
    writes, sleeps or creates a thread, while it never holds the mutex. *)
Theorem monitorTest_orchestrator_sleep (rock hamlet : text)
        (Hfit : MAIN_WAIT + (size rock + size hamlet) * TEXT_DELAY < 2 ^ 63) :
  sleeps (monitorTest rock hamlet)
  = [MAIN_WAIT + (size rock + size hamlet) * TEXT_DELAY]
  /\ (exists before,
        monitorTest rock hamlet
        = before
          ++ [SleepFor (MAIN_WAIT + (size rock + size hamlet) * TEXT_DELAY)]
          ++ cout [nl])
  /\ existsb monitor_op (monitorTest rock hamlet) = false
  /\ (forall sched tr s l s',
        run sched (demo_start MonitorDemo rock hamlet) = Some (tr, s) ->
        exec (Run Main) s = Some (l, s') ->
        monitor_label l = false /\ owner s <> Some Main).
Proof.
  split; [|split; [|split]].
  - unfold monitorTest. rewrite (monitor_wait_exact _ _ Hfit).
    rewrite !sleeps_app, !sleeps_cout. reflexivity.
  - unfold monitorTest. rewrite (monitor_wait_exact _ _ Hfit).
    exists (cout (line_lit "Displaying texts in correct order with a monitor: ")
            ++ [Spawn TA (monitor_threadA rock);
                Spawn TB (monitor_threadB hamlet)]).
    rewrite <- app_assoc. reflexivity.
  - unfold monitorTest. rewrite !existsb_app, !monitor_op_cout. reflexivity.
  - intros sched tr s l s' Hrun He.
    pose proof (demo_inv MonitorDemo _ _ _ _ _ Hrun) as Hinv.
    destruct (demo_roles MonitorDemo) as (H1 & H2 & H3 & H4).
    eapply (inv_bystander_step (demo_prog MonitorDemo rock hamlet)
              (waiter MonitorDemo) (signaller MonitorDemo)
              (bystander MonitorDemo)); eauto.
Qed.

Lemma monitorTest_orchestrator_sleep_witness :
  sleeps (monitorTest (txt "AB") (txt "CD")) = [1012]
  /\ (exists before,
        monitorTest (txt "AB") (txt "CD")
        = before ++ [SleepFor 1012] ++ cout [nl])
  /\ existsb monitor_op (monitorTest (txt "AB") (txt "CD")) = false
  /\ (forall sched tr s l s',
        run sched demo_AB_CD = Some (tr, s) ->
        exec (Run Main) s = Some (l, s') ->
        monitor_label l = false /\ owner s <> Some Main).
Proof.
  apply (monitorTest_orchestrator_sleep (txt "AB") (txt "CD")).
  vm_compute. reflexivity.
Defined.

(** ** Sample executions *)

(** Run in turn, the threads of [monitorTest] write the first text and then
    the second. *)
Example in_turn_output :
  map snd (out_but Main (out (final_state sched_in_turn demo_AB_CD)))
  = rock_banner ++ txt "AB" ++ [nl] ++ hamlet_banner ++ txt "CD".
Proof. vm_compute. reflexivity. Qed.

(** The second thread finds the flag false twice (the loop test, then the
    predicate of [wait]); before it blocks, the first thread runs to its
    end, setting the flag and notifying nobody; the second thread then
    blocks with the flag true, and no step of its own is enabled: only a
    wakeup without notification lets it go on. *)
Example lost_wakeup :
  let s := final_state (repeat (Run Main) 53 ++ repeat (Run TB) 3
                        ++ repeat (Run TA) 40 ++ [Run TB]) demo_AB_CD in
  flag s = true
  /\ pool s TA = Some (Ready, [])
  /\ fst (thr_of (demo_prog MonitorDemo (txt "AB") (txt "CD")) (pool s) TB)
     = Blocked
  /\ exec (Run TB) s = None
  /\ exec (Run TA) s = None.
Proof. vm_compute. repeat split. Qed.
(** * Further properties *)

(** ** [readFile], in closed form *)

Lemma accumulated_last_line (b cur : text) :
  accumulated cur b
  = cur ++ b ++ [nl]
    ++ match last_line cur b with [] => [] | _ :: _ => last_line cur b ++ [nl] end.
Proof.
  revert cur; induction b as [|c r IH]; intros cur; simpl.
  - destruct cur as [|a cur]; reflexivity.
  - destruct (Ascii.eqb c nl) eqn:Ec.
    + apply Ascii.eqb_eq in Ec. subst c. rewrite IH. reflexivity.
    + rewrite IH. now rewrite <- !app_assoc.
Qed.

(** [last_line] is what follows the last newline. *)
Lemma last_line_split (b cur : text) :
  exists pre,
    cur ++ b = pre ++ last_line cur b
    /\ (pre = [] \/ exists p, pre = p ++ [nl])
    /\ (~ In nl cur -> ~ In nl (last_line cur b)).
Proof.
  revert cur; induction b as [|c r IH]; intros cur; simpl.
  - exists []. rewrite app_nil_r. auto.
  - destruct (Ascii.eqb c nl) eqn:Ec.
    + apply Ascii.eqb_eq in Ec. subst c.
      destruct (IH []) as (pre & E & Hpre & Hnl). simpl in E.
      exists (cur ++ nl :: pre). split; [|split].
      * rewrite <- app_assoc. simpl. do 2 f_equal. exact E.
      * right. destruct Hpre as [-> | [p ->]].
        -- now exists cur.
        -- exists (cur ++ nl :: p). now rewrite <- app_assoc.
      * intros _. apply Hnl. intros [].
    + destruct (IH (cur ++ [c])) as (pre & E & Hpre & Hnl).
      exists pre. split; [|split].
      * rewrite <- E, <- app_assoc. reflexivity.
      * exact Hpre.
      * intros Hcur. apply Hnl. intros Hin. apply in_app_or in Hin.
        destruct Hin as [Hin | [Hin | []]]; [now apply Hcur|].
        subst c. now rewrite Ascii.eqb_refl in Ec.
Qed.

Lemma last_line_length (b cur : text) :
  (List.length (last_line cur b) <= List.length cur + List.length b)%nat.
Proof.
  revert cur; induction b as [|c r IH]; intros cur; simpl.
  - lia.
  - destruct (Ascii.eqb c nl).
    + specialize (IH []). simpl in IH. lia.
    + specialize (IH (cur ++ [c])). rewrite length_app in IH. simpl in IH. lia.
Qed.

(** X1.  On a file that opens, [readFile] returns the whole content, a
    newline, and then once more the last line followed by a newline when
    that line is not empty, that is when the content does not end in a
    newline; the last line is what follows the last newline of the
    content. *)
Theorem readFile_closed_form (fs : string -> option text) (name : string)
        (content : text) (Hopen : fs name = Some content) :
  readFile fs name
  = Some (Returned
            (content ++ [nl]
             ++ match last_line [] content with
                | [] => []
                | _ :: _ => last_line [] content ++ [nl]
                end))
  /\ exists pre,
       content = pre ++ last_line [] content
       /\ (pre = [] \/ exists p, pre = p ++ [nl])
       /\ ~ In nl (last_line [] content).
Proof.
  split.
  - rewrite (readFile_opened _ _ _ Hopen), accumulated_last_line. reflexivity.
  - destruct (last_line_split content []) as (pre & E & Hpre & Hnl).
    exists pre. simpl in E. repeat split; auto.
Qed.

Lemma readFile_closed_form_witness :
  readFile (one_file "hamlet.txt" (txt "To be" ++ [nl] ++ txt "or not"))
           "hamlet.txt"
  = Some (Returned
            ((txt "To be" ++ [nl] ++ txt "or not") ++ [nl]
             ++ match last_line [] (txt "To be" ++ [nl] ++ txt "or not") with
                | [] => []
                | _ :: _ =>
                    last_line [] (txt "To be" ++ [nl] ++ txt "or not") ++ [nl]
                end))
  /\ exists pre,
       txt "To be" ++ [nl] ++ txt "or not"
       = pre ++ last_line [] (txt "To be" ++ [nl] ++ txt "or not")
       /\ (pre = [] \/ exists p, pre = p ++ [nl])
       /\ ~ In nl (last_line [] (txt "To be" ++ [nl] ++ txt "or not")).
Proof.
  apply (readFile_closed_form
           (one_file "hamlet.txt" (txt "To be" ++ [nl] ++ txt "or not"))
           "hamlet.txt").
  reflexivity.
Defined.

(** X2.  The data [readFile] returns is longer than the content by at least
    one character and at most by the length of the content plus two. *)
Theorem readFile_length_bounds (fs : string -> option text) (name : string)
        (content : text) (Hopen : fs name = Some content) :
  exists data,
    readFile fs name = Some (Returned data)
    /\ (List.length content + 1 <= List.length data
        <= 2 * List.length content + 2)%nat.
Proof.
  rewrite (readFile_opened _ _ _ Hopen). eexists. split; [reflexivity|].
  rewrite accumulated_last_line. simpl app.
  pose proof (last_line_length content []) as Hl. simpl in Hl.
  destruct (last_line [] content) as [|a l];
    rewrite !length_app; simpl in *; rewrite ?length_app; simpl; lia.
Qed.

Lemma readFile_length_bounds_witness :
  exists data,
    readFile (one_file "hamlet.txt" (txt "To be")) "hamlet.txt"
    = Some (Returned data)
    /\ (List.length (txt "To be") + 1 <= List.length data
        <= 2 * List.length (txt "To be") + 2)%nat.
Proof.
  apply (readFile_length_bounds (one_file "hamlet.txt" (txt "To be"))
           "hamlet.txt").
  reflexivity.
Defined.

(** ** The start of [main] *)


(** ** [displayTextSlowly]: composition and cost *)

Lemma total_app (a b : list Z) : total (a ++ b) = total a + total b.
Proof.
  unfold total. induction a as [|x a IH]; simpl; [reflexivity|].
  rewrite IH. lia.
Qed.

Lemma total_repeat (d : Z) (n : nat) : total (repeat d n) = Z.of_nat n * d.
Proof.
  unfold total. induction n as [|n IH]; [reflexivity|].
  cbn [repeat fold_right]. rewrite IH. lia.
Qed.

(** Displaying two texts one after the other is displaying their
    concatenation: the operations are the same, in the same order. *)
Lemma display_app (a b : text) (delay : Z) :
  displayTextSlowly (a ++ b) delay
  = displayTextSlowly a delay ++ displayTextSlowly b delay.
Proof. apply flat_map_app. Qed.


Lemma sleeps_monitor_threadA (rock : text) :
  sleeps (monitor_threadA rock) = repeat TEXT_DELAY (List.length rock).
Proof.
  unfold monitor_threadA.
  rewrite !sleeps_app, sleeps_cout, sleeps_display. simpl.
  now rewrite app_nil_r.
Qed.

Lemma sleeps_monitor_threadB (hamlet : text) :
  sleeps (monitor_threadB hamlet) = repeat TEXT_DELAY (List.length hamlet).
Proof.
  unfold monitor_threadB.
  rewrite !sleeps_app, sleeps_cout, sleeps_display. simpl.
  now rewrite app_nil_r.
Qed.

(** X4.  The time the orchestrating thread of [monitorTest] sleeps is
    [MAIN_WAIT] plus all the time its two threads sleep while they display
    their texts (as long as the sum fits the signed 64-bit count). *)
Theorem monitor_wait_covers_sleeps (rock hamlet : text)
        (Hfit : MAIN_WAIT + (size rock + size hamlet) * TEXT_DELAY < 2 ^ 63) :
  monitor_wait rock hamlet
  = MAIN_WAIT + total (sleeps (monitor_threadA rock))
    + total (sleeps (monitor_threadB hamlet)).
Proof.
  rewrite (monitor_wait_exact _ _ Hfit).
  rewrite sleeps_monitor_threadA, sleeps_monitor_threadB, !total_repeat.
  unfold size. lia.
Qed.

Lemma monitor_wait_covers_sleeps_witness :
  monitor_wait (txt "AB") (txt "CD")
  = MAIN_WAIT + total (sleeps (monitor_threadA (txt "AB")))
    + total (sleeps (monitor_threadB (txt "CD"))).
Proof.
  apply (monitor_wait_covers_sleeps (txt "AB") (txt "CD")).
  vm_compute. reflexivity.
Defined.

(** ** Consequences of the monitor invariant *)

Lemma written_by_same (t : tid) (w : text) :
  written_by t (map (pair t) w) = w.
Proof.
  unfold written_by. induction w as [|c w IH]; simpl; [reflexivity|].
  rewrite tid_eqb_refl. simpl. now rewrite IH.
Qed.

Lemma written_by_other (t u : tid) (w : text) :
  u <> t -> written_by t (map (pair u) w) = [].
Proof.
  intros Hne. unfold written_by.
  induction w as [|c w IH]; simpl; [reflexivity|].
  now rewrite (tid_eqb_neq _ _ Hne).
Qed.

Lemma written_by_app (t : tid) (a b : list (tid * ascii)) :
  written_by t (a ++ b) = written_by t a ++ written_by t b.
Proof. unfold written_by. now rewrite filter_app, map_app. Qed.

Section Roles.

Variables (prog : tid -> list instr) (W S B : tid) (post : list instr).
Hypothesis HWS : W <> S.
Hypothesis HWB : W <> B.
Hypothesis HSB : S <> B.
Hypothesis Hall : forall t, t = W \/ t = S \/ t = B.
Hypothesis Hpost : Forall plain post.

Lemma chars_plain_wait (p c : list instr) :
  In WaitLoop (p ++ Lock :: WaitLoop :: c).
Proof. apply in_or_app. right. simpl. auto. Qed.

(** Once the waiter is past its wait loop the flag is true, the signaller
    has nothing left to write, and the waiter holds the mutex until it has
    run to its end. *)
Lemma inv_past_wait (s : state) :
  monitor_inv prog W S B post s ->
  past_wait prog s W ->
  flag s = true
  /\ chars (snd (thr_of prog (pool s) S)) = []
  /\ (snd (thr_of prog (pool s) W) = [] \/ owner s = Some W).
Proof.
  intros (HS & HW & _) Hpast. unfold past_wait in Hpast.
  assert (Hf : flag s = true
               /\ (snd (thr_of prog (pool s) W) = [] \/ owner s = Some W)).
  { destruct HW as [ws p Hp Ho | ws Ho | ws q Hq Hf Ho | ws Hf Ho];
      cbn [snd] in *; auto.
    - elim Hpast. apply chars_plain_wait.
    - elim Hpast. simpl. auto. }
  destruct Hf as [Hf Hw]. split; [exact Hf|]. split; [|exact Hw].
  inversion HS as [p Hp Hf' Hc | Hf' Hc | Hf' Hc]; try congruence; reflexivity.
Qed.

(** Every step keeps the account of every thread. *)
Lemma accounted_step (ch : choice) (s : state) (l : label) (s' : state) :
  monitor_inv prog W S B post s ->
  accounted prog s ->
  exec ch s = Some (l, s') ->
  accounted prog s'.
Proof.
  intros Hinv Hacc He t. specialize (Hacc t).
  rewrite (exec_out _ _ _ _ He), written_by_app.
  destruct (tid_eqb t (actor ch)) eqn:Et.
  - apply tid_eqb_eq in Et. subst t.
    rewrite (exec_chars_actor prog _ _ _ _ He) in Hacc.
    rewrite written_by_same, <- app_assoc. exact Hacc.
  - assert (Hne : actor ch <> t).
    { intros E. rewrite E, tid_eqb_refl in Et. discriminate. }
    rewrite (written_by_other _ _ _ Hne), app_nil_r.
    rewrite (inv_code_other prog W S B post Hall _ _ _ _ t Hinv He);
      [exact Hacc | congruence].
Qed.

Lemma accounted_run (sched : list choice) :
  forall (s : state) (tr : list (tid * label)) (s' : state),
    monitor_inv prog W S B post s ->
    accounted prog s ->
    run sched s = Some (tr, s') ->
    accounted prog s'.
Proof.
  induction sched as [|ch rest IH]; intros s tr s' Hinv Hacc Hr; simpl in Hr.
  - inversion Hr; subst. exact Hacc.
  - destruct (exec ch s) as [[l s1]|] eqn:He; try discriminate.
    destruct (run rest s1) as [[tr1 s2]|] eqn:Hr1; try discriminate.
    inversion Hr; subst. eapply IH; [| |exact Hr1].
    + eapply (inv_step prog W S B post); eassumption.
    + eapply accounted_step; eassumption.
Qed.

(** While the waiter is blocked and the signaller has run to its end, only
    a spurious wakeup of the waiter changes that. *)
Lemma blocked_step (ch : choice) (s : state) (l : label) (s' : state)
      (c : list instr) :
  monitor_inv prog W S B post s ->
  pool s W = Some (Blocked, WaitLoop :: c) ->
  (exists ws, pool s S = Some (ws, [])) ->
  ch <> Spurious W ->
  exec ch s = Some (l, s') ->
  pool s' W = Some (Blocked, WaitLoop :: c)
  /\ (exists ws, pool s' S = Some (ws, []))
  /\ written l = match ch with Run t | Spurious t =>
                   if tid_eqb t B then written l else [] end.
Proof.
  intros (_ & _ & HB) EW [wsS ES] Hch He.
  assert (eSW : tid_eqb S W = false) by (apply tid_eqb_neq; congruence).
  assert (eWS : tid_eqb W S = false) by (now apply tid_eqb_neq).
  assert (eWB : tid_eqb W B = false) by (now apply tid_eqb_neq).
  assert (eSB : tid_eqb S B = false) by (now apply tid_eqb_neq).
  assert (eBW : tid_eqb B W = false) by (apply tid_eqb_neq; congruence).
  assert (eBS : tid_eqb B S = false) by (apply tid_eqb_neq; congruence).
  destruct ch as [t|t]; destruct (Hall t) as [-> | [-> | ->]]; simpl in He.
  - rewrite EW in He. discriminate.
  - rewrite ES in He. discriminate.
  - rewrite tid_eqb_refl.
    destruct (pool s B) as [[ws [|i cb]]|] eqn:EB; try discriminate.
    rewrite (thr_of_some prog _ _ _ EB) in HB. simpl in HB.
    inversion HB as [|? ? Hi Hc]; subst.
    destruct i; try contradiction.
    + inversion He; subst; simpl. unfold upd. rewrite eWB, eSB. eauto.
    + inversion He; subst; simpl. unfold upd. rewrite eWB, eSB. eauto.
    + destruct (pool s t) eqn:Et; try discriminate.
      destruct (Hall t) as [-> | [-> | ->]]; congruence.
  - congruence.
  - rewrite ES in He. destruct wsS; try discriminate.
    inversion He; subst; simpl. unfold upd.
    rewrite eWS, tid_eqb_refl, eSB. eauto.
  - rewrite tid_eqb_refl.
    destruct (pool s B) as [[[] cb]|] eqn:EB; try discriminate.
    inversion He; subst; simpl. unfold upd. rewrite eWB, eSB. eauto.
Qed.

Lemma blocked_run (sched : list choice) :
  forall (s : state) (tr : list (tid * label)) (s' : state) (c : list instr),
    monitor_inv prog W S B post s ->
    pool s W = Some (Blocked, WaitLoop :: c) ->
    (exists ws, pool s S = Some (ws, [])) ->
    no_spurious W sched ->
    run sched s = Some (tr, s') ->
    pool s' W = Some (Blocked, WaitLoop :: c)
    /\ written_by W (out s') = written_by W (out s)
    /\ written_by S (out s') = written_by S (out s).
Proof.
  induction sched as [|ch rest IH]; intros s tr s' c Hinv EW ES Hns Hr;
    simpl in Hr.
  - inversion Hr; subst. auto.
  - destruct (exec ch s) as [[l s1]|] eqn:He; try discriminate.
    destruct (run rest s1) as [[tr1 s2]|] eqn:Hr1; try discriminate.
    inversion Hr; subst; clear Hr.
    inversion Hns as [|? ? Hch Hns']; subst.
    destruct (blocked_step _ _ _ _ _ Hinv EW ES Hch He) as (EW1 & ES1 & Hwr).
    pose proof (inv_step prog W S B post HWS HWB HSB Hall Hpost _ _ _ _ Hinv He)
      as Hinv1.
    destruct (IH _ _ _ _ Hinv1 EW1 ES1 Hns' Hr1) as (EW' & HoW & HoS).
    split; [exact EW'|].
    rewrite HoW, HoS, (exec_out _ _ _ _ He), !written_by_app.
    assert (E : forall u, u <> B ->
              written_by u (map (pair (actor ch)) (written l)) = []).
    { intros u Hu. rewrite Hwr.
      destruct ch as [t|t]; simpl;
        (destruct (tid_eqb t B) eqn:Et; [|reflexivity]);
        apply tid_eqb_eq in Et; subst t;
        apply written_by_other; congruence. }
    rewrite (E W HWB), (E S HSB). now rewrite !app_nil_r.
Qed.

End Roles.
(** ** Further properties of the two demos *)

Lemma demo_accounted (d : demo) (rock hamlet : text) (sched : list choice)
      (tr : list (tid * label)) (s : state) :
  run sched (demo_start d rock hamlet) = Some (tr, s) ->
  accounted (demo_prog d rock hamlet) s.
Proof.
  destruct (demo_roles d) as (H1 & H2 & H3 & H4).
  apply (accounted_run (demo_prog d rock hamlet) (waiter d) (signaller d)
           (bystander d) (after_wait d hamlet) H1 H2 H3 H4
           (after_wait_plain d hamlet)).
  - apply demo_inv_start.
  - intros t. unfold demo_start, start, thr_of. cbn [out pool written_by].
    destruct t; reflexivity.
Qed.

Lemma chars_race_threadA (rock : text) :
  chars (race_threadA rock) = rock_banner ++ rock.
Proof.
  unfold race_threadA. now rewrite chars_app, chars_cout, chars_display.
Qed.

Lemma chars_race_threadB (hamlet : text) :
  chars (race_threadB hamlet) = hamlet_banner ++ hamlet.
Proof.
  unfold race_threadB.
  rewrite !chars_app, chars_cout, chars_display. simpl. now rewrite app_nil_r.
Qed.

(** X6.  In [raceTest] the two texts may mix, but each thread writes its
    own characters in order: at every point of every execution, what a
    thread has written is the beginning of its banner followed by its
    text. *)
Theorem race_threads_keep_order (rock hamlet : text) (sched : list choice)
        (tr : list (tid * label)) (s : state)
        (Hrun : run sched (demo_start RaceDemo rock hamlet) = Some (tr, s)) :
  exists ra rb,
    written_by TA (out s) ++ ra = rock_banner ++ rock
    /\ written_by TB (out s) ++ rb = hamlet_banner ++ hamlet.
Proof.
  pose proof (demo_accounted RaceDemo _ _ _ _ _ Hrun) as Hacc.
  pose proof (Hacc TA) as HA. pose proof (Hacc TB) as HB.
  cbn [demo_prog] in HA, HB.
  rewrite chars_race_threadA in HA. rewrite chars_race_threadB in HB.
  eauto.
Qed.

Lemma race_threads_keep_order_witness :
  exists ra rb,
    written_by TA
      (out (final_state (repeat (Run Main) 42 ++ [Run TA; Run TB; Run TA])
              (demo_start RaceDemo (txt "AB") (txt "CD")))) ++ ra
    = rock_banner ++ txt "AB"
    /\ written_by TB
         (out (final_state (repeat (Run Main) 42 ++ [Run TA; Run TB; Run TA])
                 (demo_start RaceDemo (txt "AB") (txt "CD")))) ++ rb
       = hamlet_banner ++ txt "CD".
Proof.
  apply (race_threads_keep_order (txt "AB") (txt "CD")
           (repeat (Run Main) 42 ++ [Run TA; Run TB; Run TA])
           (trace_of (repeat (Run Main) 42 ++ [Run TA; Run TB; Run TA])
              (demo_start RaceDemo (txt "AB") (txt "CD")))).
  vm_compute. reflexivity.
Defined.

(** X7.  [raceTest] gets past its wait loop, and so writes its last newline
    and returns, only when the flag is true and its second thread has
    written its banner and the whole second text. *)
Theorem raceTest_waits_for_second_thread (rock hamlet : text)
        (sched : list choice) (tr : list (tid * label)) (s : state)
        (Hrun : run sched (demo_start RaceDemo rock hamlet) = Some (tr, s))
        (Hpast : past_wait (demo_prog RaceDemo rock hamlet) s Main) :
  flag s = true /\ written_by TB (out s) = hamlet_banner ++ hamlet.
Proof.
  pose proof (demo_inv RaceDemo _ _ _ _ _ Hrun) as Hinv.
  pose proof (demo_accounted RaceDemo _ _ _ _ _ Hrun TB) as HB.
  cbn [waiter signaller bystander] in Hinv. cbn [demo_prog] in HB.
  destruct (inv_past_wait _ _ _ _ _ _ Hinv Hpast) as (Hf & Hc & _).
  split; [exact Hf|].
  cbn [demo_prog] in Hc. rewrite Hc, app_nil_r, chars_race_threadB in HB.
  exact HB.
Qed.

Lemma raceTest_waits_for_second_thread_witness :
  flag (final_state (repeat (Run Main) 42 ++ repeat (Run TB) 31
                     ++ repeat (Run Main) 3)
          (demo_start RaceDemo (txt "AB") (txt "CD"))) = true
  /\ written_by TB
       (out (final_state (repeat (Run Main) 42 ++ repeat (Run TB) 31
                          ++ repeat (Run Main) 3)
               (demo_start RaceDemo (txt "AB") (txt "CD"))))
     = hamlet_banner ++ txt "CD".
Proof.
  apply (raceTest_waits_for_second_thread (txt "AB") (txt "CD")
           (repeat (Run Main) 42 ++ repeat (Run TB) 31 ++ repeat (Run Main) 3)
           (trace_of (repeat (Run Main) 42 ++ repeat (Run TB) 31
                      ++ repeat (Run Main) 3)
              (demo_start RaceDemo (txt "AB") (txt "CD")))).
  - vm_compute. reflexivity.
  - vm_compute. intuition discriminate.
Defined.

(** X8.  In both demos the waiter holds the mutex at every step it takes
    after its wait loop, its [lock.unlock()] included: [raceTest] sleeps
    [MAIN_WAIT] and writes its last newline with [raceMutex] held, and the
    second thread of [monitorTest] writes its banner and the whole second
    text with [printMutex] held. *)
Theorem waiter_holds_mutex_after_wait (d : demo) (rock hamlet : text)
        (sched : list choice) (tr : list (tid * label)) (s : state)
        (l : label) (s' : state)
        (Hrun : run sched (demo_start d rock hamlet) = Some (tr, s))
        (Hpast : past_wait (demo_prog d rock hamlet) s (waiter d))
        (Hstep : exec (Run (waiter d)) s = Some (l, s')) :
  owner s = Some (waiter d)
  /\ (owner s' = Some (waiter d) \/ l = LUnlock).
Proof.
  pose proof (demo_inv d _ _ _ _ _ Hrun) as Hinv.
  destruct (inv_past_wait _ _ _ _ _ _ Hinv Hpast) as (_ & _ & Hw).
  pose proof Hstep as He. simpl in He.
  destruct (pool s (waiter d)) as [[ws [|i c]]|] eqn:Ep; try discriminate.
  rewrite (thr_of_some _ _ _ _ Ep) in Hw. cbn [snd] in Hw.
  destruct Hw as [Hw | Ho]; [discriminate|].
  split; [exact Ho|].
  unfold past_wait in Hpast. rewrite (thr_of_some _ _ _ _ Ep) in Hpast.
  cbn [snd] in Hpast.
  rewrite Ho in He.
  destruct i; try (inversion He; subst; cbn [owner]; auto; fail).
  - elim Hpast. now left.
  - rewrite tid_eqb_refl in He. inversion He; subst. auto.
  - destruct (pool s t); try discriminate. inversion He; subst; cbn [owner]; auto.
Qed.

Lemma waiter_holds_mutex_after_wait_witness :
  owner (final_state (repeat (Run Main) 42 ++ repeat (Run TB) 31
                      ++ repeat (Run Main) 3)
           (demo_start RaceDemo (txt "AB") (txt "CD"))) = Some Main
  /\ (owner (final_state (repeat (Run Main) 42 ++ repeat (Run TB) 31
                          ++ repeat (Run Main) 4)
               (demo_start RaceDemo (txt "AB") (txt "CD"))) = Some Main
      \/ LOut nl = LUnlock).
Proof.
  apply (waiter_holds_mutex_after_wait RaceDemo (txt "AB") (txt "CD")
           (repeat (Run Main) 42 ++ repeat (Run TB) 31 ++ repeat (Run Main) 3)
           (trace_of (repeat (Run Main) 42 ++ repeat (Run TB) 31
                      ++ repeat (Run Main) 3)
              (demo_start RaceDemo (txt "AB") (txt "CD")))).
  - vm_compute. reflexivity.
  - vm_compute. intuition discriminate.
  - vm_compute. reflexivity.
Defined.

(** The orchestrating thread of a demo runs its banner, creates the two
    threads and goes on with [demo_rest]. *)
Lemma demo_main_code (d : demo) (rock hamlet : text) :
  demo_prog d rock hamlet Main
  = cout (demo_banner d)
    ++ Spawn TA (demo_prog d rock hamlet TA)
    :: Spawn TB (demo_prog d rock hamlet TB)
    :: demo_rest d rock hamlet.
Proof. destruct d; reflexivity. Qed.

(** Until the banner is complete nothing else is written and no thread
    exists; afterwards the output starts with the banner. *)
Lemma banner_step (d : demo) (rock hamlet : text) (ch : choice) (s : state)
      (l : label) (s' : state) :
  (exists b1 b2 ws,
      demo_banner d = b1 ++ b2
      /\ out s = map (pair Main) b1
      /\ pool s Main
         = Some (ws, cout b2 ++ Spawn TA (demo_prog d rock hamlet TA)
                      :: Spawn TB (demo_prog d rock hamlet TB)
                      :: demo_rest d rock hamlet)
      /\ pool s TA = None /\ pool s TB = None)
  \/ (exists o, out s = map (pair Main) (demo_banner d) ++ o) ->
  exec ch s = Some (l, s') ->
  (exists b1 b2 ws,
      demo_banner d = b1 ++ b2
      /\ out s' = map (pair Main) b1
      /\ pool s' Main
         = Some (ws, cout b2 ++ Spawn TA (demo_prog d rock hamlet TA)
                      :: Spawn TB (demo_prog d rock hamlet TB)
                      :: demo_rest d rock hamlet)
      /\ pool s' TA = None /\ pool s' TB = None)
  \/ (exists o, out s' = map (pair Main) (demo_banner d) ++ o).
Proof.
  intros [(b1 & b2 & ws & Eb & Eo & Em & Ea & Eb') | [o Eo]] He.
  - destruct ch as [[]|[]]; simpl in He; rewrite ?Ea, ?Eb', ?Em in He;
      try discriminate.
    + destruct b2 as [|c b2]; simpl in He.
      * rewrite Ea in He. inversion He; subst; clear He. right.
        exists []. cbn [out]. rewrite Eo, Eb, !app_nil_r. reflexivity.
      * inversion He; subst; clear He. left.
        exists (b1 ++ [c]), b2, Ready. cbn [out pool].
        rewrite Eb, Eo, map_app, <- app_assoc. unfold upd. simpl.
        repeat split; auto.
    + destruct ws; try discriminate.
      inversion He; subst; clear He. left.
      exists b1, b2, Reacquire. cbn [out pool]. unfold upd. simpl.
      repeat split; auto.
  - right. rewrite (exec_out _ _ _ _ He), Eo, <- app_assoc. eauto.
Qed.

Lemma banner_run (d : demo) (rock hamlet : text) (sched : list choice) :
  forall (s : state) (tr : list (tid * label)) (s' : state),
    (exists b1 b2 ws,
        demo_banner d = b1 ++ b2
        /\ out s = map (pair Main) b1
        /\ pool s Main
           = Some (ws, cout b2 ++ Spawn TA (demo_prog d rock hamlet TA)
                        :: Spawn TB (demo_prog d rock hamlet TB)
                        :: demo_rest d rock hamlet)
        /\ pool s TA = None /\ pool s TB = None)
    \/ (exists o, out s = map (pair Main) (demo_banner d) ++ o) ->
    run sched s = Some (tr, s') ->
    (exists b1 b2 ws,
        demo_banner d = b1 ++ b2
        /\ out s' = map (pair Main) b1
        /\ pool s' Main
           = Some (ws, cout b2 ++ Spawn TA (demo_prog d rock hamlet TA)
                        :: Spawn TB (demo_prog d rock hamlet TB)
                        :: demo_rest d rock hamlet)
        /\ pool s' TA = None /\ pool s' TB = None)
    \/ (exists o, out s' = map (pair Main) (demo_banner d) ++ o).
Proof.
  induction sched as [|ch rest IH]; intros s tr s' H Hr; simpl in Hr.
  - inversion Hr; subst. exact H.
  - destruct (exec ch s) as [[l s1]|] eqn:He; try discriminate.
    destruct (run rest s1) as [[tr1 s2]|] eqn:Hr1; try discriminate.
    inversion Hr; subst. eapply IH; [|exact Hr1].
    eapply banner_step; eassumption.
Qed.

(** X9.  Each demo writes its banner line first: as long as the banner is
    incomplete, the output is the beginning of the banner, written by the
    orchestrating thread, and neither thread exists yet; afterwards the
    output starts with the whole banner. *)
Theorem demo_banner_first (d : demo) (rock hamlet : text)
        (sched : list choice) (tr : list (tid * label)) (s : state)
        (Hrun : run sched (demo_start d rock hamlet) = Some (tr, s)) :
  exists b1 b2 o,
    demo_banner d = b1 ++ b2
    /\ out s = map (pair Main) b1 ++ o
    /\ (b2 <> [] -> o = [] /\ pool s TA = None /\ pool s TB = None).
Proof.
  assert (H0 : (exists b1 b2 ws,
                   demo_banner d = b1 ++ b2
                   /\ out (demo_start d rock hamlet) = map (pair Main) b1
                   /\ pool (demo_start d rock hamlet) Main
                      = Some (ws, cout b2
                                   ++ Spawn TA (demo_prog d rock hamlet TA)
                                   :: Spawn TB (demo_prog d rock hamlet TB)
                                   :: demo_rest d rock hamlet)
                   /\ pool (demo_start d rock hamlet) TA = None
                   /\ pool (demo_start d rock hamlet) TB = None)
                \/ (exists o, out (demo_start d rock hamlet)
                              = map (pair Main) (demo_banner d) ++ o)).
  { left. exists [], (demo_banner d), Ready.
    unfold demo_start, start. cbn [out pool].
    rewrite demo_main_code. repeat split. }
  destruct (banner_run d rock hamlet sched _ _ _ H0 Hrun)
    as [(b1 & b2 & ws & Eb & Eo & _ & Ea & Eb') | [o Eo]].
  - exists b1, b2, []. rewrite app_nil_r. auto.
  - exists (demo_banner d), [], o. rewrite app_nil_r.
    split; [reflexivity|]. split; [exact Eo|].
    intros Hne. now elim Hne.
Qed.

Lemma demo_banner_first_witness :
  exists b1 b2 o,
    demo_banner MonitorDemo = b1 ++ b2
    /\ out (final_state (repeat (Run Main) 7) demo_AB_CD)
       = map (pair Main) b1 ++ o
    /\ (b2 <> [] ->
        o = []
        /\ pool (final_state (repeat (Run Main) 7) demo_AB_CD) TA = None
        /\ pool (final_state (repeat (Run Main) 7) demo_AB_CD) TB = None).
Proof.
  apply (demo_banner_first MonitorDemo (txt "AB") (txt "CD")
           (repeat (Run Main) 7) (trace_of (repeat (Run Main) 7) demo_AB_CD)).
  vm_compute. reflexivity.
Defined.

(** ** Building executions *)

Lemma run_seq (a b : list choice) (s s1 s2 : state)
      (tr1 tr2 : list (tid * label)) :
  run a s = Some (tr1, s1) ->
  run b s1 = Some (tr2, s2) ->
  run (a ++ b) s = Some (tr1 ++ tr2, s2).
Proof. intros Ha Hb. now rewrite run_app, Ha, Hb. Qed.

(** A thread runs through plain code alone; it writes the characters of
    that code and changes nothing else. *)
Lemma run_plain_out (t : tid) (p : list instr) :
  Forall plain p ->
  forall (s : state) (ws : wstate) (c : list instr),
    pool s t = Some (ws, p ++ c) ->
    exists tr s' ws',
      run (repeat (Run t) (List.length p)) s = Some (tr, s')
      /\ flag s' = flag s /\ owner s' = owner s
      /\ out s' = out s ++ map (pair t) (chars p)
      /\ pool s' t = Some (ws', c)
      /\ (ws' = ws \/ ws' = Ready)
      /\ frame t s s'.
Proof.
  induction 1 as [|i p Hi Hp IH]; intros s ws c Ep.
  - exists [], s, ws. simpl. rewrite app_nil_r. unfold frame.
    repeat split; auto.
  - assert (Hex : exists l s1,
               exec (Run t) s = Some (l, s1)
               /\ flag s1 = flag s /\ owner s1 = owner s
               /\ out s1 = out s ++ map (pair t) (chars [i])
               /\ pool s1 = upd t (Ready, p ++ c) (pool s)).
    { simpl. simpl in Ep. rewrite Ep.
      destruct i; try contradiction; eexists; eexists; simpl;
        rewrite ?app_nil_r; eauto. }
    destruct Hex as (l & s1 & He & Hf1 & Ho1 & Hw1 & Hp1).
    assert (Ep1 : pool s1 t = Some (Ready, p ++ c))
      by (rewrite Hp1; apply upd_same).
    destruct (IH _ _ _ Ep1)
      as (tr & s' & ws' & Hr & Hf & Ho & Hw & Ep' & Hws & Hfr).
    exists ((t, l) :: tr), s', ws'.
    cbn [List.length repeat run]. rewrite He, Hr. cbn [actor].
    split; [reflexivity|]. split; [congruence|]. split; [congruence|].
    split; [|split; [exact Ep'|split; [destruct Hws; auto|]]].
    + rewrite Hw, Hw1, <- app_assoc, <- map_app.
      change (i :: p) with ([i] ++ p). now rewrite chars_app.
    + intros u Hu. rewrite (Hfr _ Hu), Hp1. now apply upd_other.
Qed.

(** The assignment to the flag and the notification, while no thread is
    blocked on the condition variable. *)
Lemma run_set_notify (t : tid) (s : state) (ws : wstate) (b : bool)
      (c : list instr) :
  pool s t = Some (ws, SetFlag b :: NotifyAll :: c) ->
  (forall u c', pool s u <> Some (Blocked, c')) ->
  exists tr s',
    run [Run t; Run t] s = Some (tr, s')
    /\ flag s' = b /\ owner s' = owner s /\ out s' = out s
    /\ pool s' t = Some (Ready, c)
    /\ frame t s s'.
Proof.
  intros Ep Hnb. cbn [run exec]. rewrite Ep. cbn [pool flag owner out].
  rewrite upd_same. cbn [pool flag owner out actor].
  eexists. eexists. split; [reflexivity|]. cbn [pool flag owner out].
  rewrite upd_same. repeat split.
  intros u Hu. cbn [pool]. rewrite upd_other by exact Hu.
  unfold wake_all. rewrite upd_other by exact Hu.
  destruct (pool s u) as [[[] cu]|] eqn:Eu; try reflexivity.
  now elim (Hnb u cu).
Qed.

(** Taking the mutex and passing the wait loop at once, the flag being
    true. *)
Lemma run_lock_pass (t : tid) (s : state) (ws : wstate) (c : list instr) :
  pool s t = Some (ws, Lock :: WaitLoop :: c) ->
  owner s = None -> flag s = true ->
  exists tr s',
    run [Run t; Run t] s = Some (tr, s')
    /\ flag s' = true /\ owner s' = Some t /\ out s' = out s
    /\ pool s' t = Some (Ready, c)
    /\ frame t s s'.
Proof.
  intros Ep Ho Hf. cbn [run exec]. rewrite Ep, Ho. cbn [pool flag owner out].
  rewrite upd_same, Hf. cbn [pool flag owner out actor].
  eexists. eexists. split; [reflexivity|]. cbn [pool flag owner out].
  rewrite upd_same. repeat split.
  intros u Hu. cbn [pool]. now rewrite !upd_other by exact Hu.
Qed.

(** Taking the mutex and finding the flag false twice, in the test of the
    loop and in the predicate of [wait]: the thread is about to block. *)
Lemma run_lock_check (t : tid) (s : state) (ws : wstate) (c : list instr) :
  pool s t = Some (ws, Lock :: WaitLoop :: c) ->
  owner s = None -> flag s = false ->
  exists tr s',
    run [Run t; Run t; Run t] s = Some (tr, s')
    /\ flag s' = false /\ owner s' = Some t /\ out s' = out s
    /\ pool s' t = Some (AboutToBlock, WaitLoop :: c)
    /\ frame t s s'.
Proof.
  intros Ep Ho Hf. cbn [run exec]. rewrite Ep, Ho. cbn [pool flag owner out].
  rewrite upd_same, Hf. cbn [pool flag owner out].
  rewrite upd_same. cbn [pool flag owner out actor].
  eexists. eexists. split; [reflexivity|]. cbn [pool flag owner out].
  rewrite upd_same. repeat split; auto.
  intros u Hu. cbn [pool]. now rewrite !upd_other by exact Hu.
Qed.

(** [cv.wait(lock)]: the mutex is released and the thread blocks. *)
Lemma run_block (t : tid) (s : state) (c : list instr) :
  pool s t = Some (AboutToBlock, WaitLoop :: c) ->
  exists tr s',
    run [Run t] s = Some (tr, s')
    /\ flag s' = flag s /\ owner s' = None /\ out s' = out s
    /\ pool s' t = Some (Blocked, WaitLoop :: c)
    /\ frame t s s'.
Proof.
  intros Ep. cbn [run exec]. rewrite Ep. cbn [actor].
  eexists. eexists. split; [reflexivity|]. cbn [pool flag owner out].
  rewrite upd_same. repeat split.
  intros u Hu. cbn [pool]. now rewrite upd_other by exact Hu.
Qed.

(** [lock.unlock()] by the thread that holds the mutex. *)
Lemma run_unlock (t : tid) (s : state) (ws : wstate) (c : list instr) :
  pool s t = Some (ws, Unlock :: c) ->
  owner s = Some t ->
  exists tr s',
    run [Run t] s = Some (tr, s')
    /\ flag s' = flag s /\ owner s' = None /\ out s' = out s
    /\ pool s' t = Some (Ready, c)
    /\ frame t s s'.
Proof.
  intros Ep Ho. cbn [run exec]. rewrite Ep, Ho, tid_eqb_refl. cbn [actor].
  eexists. eexists. split; [reflexivity|]. cbn [pool flag owner out].
  rewrite upd_same. repeat split.
  intros u Hu. cbn [pool]. now rewrite upd_other by exact Hu.
Qed.

(** Each demo can create its two threads: the orchestrating thread writes
    its banner and runs its two [Spawn]s. *)
Lemma demo_spawned (d : demo) (rock hamlet : text) :
  exists tr s,
    run (repeat (Run Main) (List.length (demo_banner d)) ++ [Run Main; Run Main])
        (demo_start d rock hamlet) = Some (tr, s)
    /\ flag s = false /\ owner s = None
    /\ out s = map (pair Main) (demo_banner d)
    /\ pool s Main = Some (Ready, demo_rest d rock hamlet)
    /\ pool s TA = Some (Ready, demo_prog d rock hamlet TA)
    /\ pool s TB = Some (Ready, demo_prog d rock hamlet TB).
Proof.
  assert (E0 : pool (demo_start d rock hamlet) Main
               = Some (Ready, cout (demo_banner d)
                              ++ Spawn TA (demo_prog d rock hamlet TA)
                              :: Spawn TB (demo_prog d rock hamlet TB)
                              :: demo_rest d rock hamlet)).
  { unfold demo_start, start. cbn [pool]. now rewrite demo_main_code. }
  destruct (run_plain_out Main _ (plain_cout (demo_banner d)) _ _ _ E0)
    as (tr1 & s1 & ws1 & Hr1 & Hf1 & Ho1 & Hw1 & Ep1 & _ & Hfr1).
  unfold cout in Hr1 at 1. rewrite length_map in Hr1.
  pose proof (Hfr1 TA ltac:(discriminate)) as EA.
  pose proof (Hfr1 TB ltac:(discriminate)) as EB.
  unfold demo_start, start in EA, EB, Hf1, Ho1, Hw1.
  cbn [pool flag owner out] in EA, EB, Hf1, Ho1, Hw1.
  rewrite chars_cout in Hw1. simpl in Hw1.
  eexists. eexists. split.
  - eapply run_seq; [exact Hr1|].
    cbn [run exec]. rewrite Ep1, EA. cbn [pool flag owner out].
    rewrite upd_other by discriminate. rewrite upd_same.
    rewrite !upd_other by discriminate. rewrite EB. reflexivity.
  - cbn [pool flag owner out]. unfold upd. cbn [tid_eqb].
    repeat split; auto.
Qed.

(** ** A wakeup can be lost *)

(** The waiter finds the flag false in the test of its loop and in the
    predicate of [wait]; before it blocks, the signaller runs to its end;
    the waiter then blocks, the flag being true and the notification
    gone. *)
Lemma lose_wakeup (W S : tid) (s : state) (c p : list instr)
      (wsW wsS : wstate) :
  W <> S -> Forall plain p ->
  flag s = false -> owner s = None ->
  pool s W = Some (wsW, Lock :: WaitLoop :: c) ->
  pool s S = Some (wsS, p ++ [SetFlag true; NotifyAll]) ->
  (forall u c', u <> W -> pool s u <> Some (Blocked, c')) ->
  exists tr s',
    run ([Run W; Run W; Run W] ++ repeat (Run S) (List.length p)
         ++ [Run S; Run S] ++ [Run W]) s = Some (tr, s')
    /\ flag s' = true /\ owner s' = None
    /\ out s' = out s ++ map (pair S) (chars p)
    /\ pool s' W = Some (Blocked, WaitLoop :: c)
    /\ pool s' S = Some (Ready, [])
    /\ forall u, u <> W -> u <> S -> pool s' u = pool s u.
Proof.
  intros HWS Hp Hf Ho EW ES Hnb.
  assert (HSW : S <> W) by congruence.
  destruct (run_lock_check W s wsW c EW Ho Hf)
    as (tr1 & s1 & Hr1 & Hf1 & Ho1 & Hw1 & EW1 & Hfr1).
  assert (ES1 : pool s1 S = Some (wsS, p ++ [SetFlag true; NotifyAll]))
    by (rewrite (Hfr1 S HSW); exact ES).
  destruct (run_plain_out S p Hp s1 wsS _ ES1)
    as (tr2 & s2 & ws2 & Hr2 & Hf2 & Ho2 & Hw2 & ES2 & Hws2 & Hfr2).
  assert (EW2 : pool s2 W = Some (AboutToBlock, WaitLoop :: c))
    by (rewrite (Hfr2 W HWS); exact EW1).
  assert (Hnb2 : forall u c', pool s2 u <> Some (Blocked, c')).
  { intros u c' E.
    destruct (tid_eqb u W) eqn:EuW; [apply tid_eqb_eq in EuW; subst; congruence|].
    destruct (tid_eqb u S) eqn:EuS.
    - apply tid_eqb_eq in EuS. subst u. rewrite ES2 in E.
      destruct Hws2 as [-> | ->]; [|discriminate].
      apply (Hnb S (p ++ [SetFlag true; NotifyAll]) HSW).
      inversion E; subst. exact ES.
    - assert (HuW : u <> W) by (intros ->; now rewrite tid_eqb_refl in EuW).
      assert (HuS : u <> S) by (intros ->; now rewrite tid_eqb_refl in EuS).
      rewrite (Hfr2 u HuS), (Hfr1 u HuW) in E. exact (Hnb u c' HuW E). }
  destruct (run_set_notify S s2 ws2 true [] ES2 Hnb2)
    as (tr3 & s3 & Hr3 & Hf3 & Ho3 & Hw3 & ES3 & Hfr3).
  assert (EW3 : pool s3 W = Some (AboutToBlock, WaitLoop :: c))
    by (rewrite (Hfr3 W HWS); exact EW2).
  destruct (run_block W s3 c EW3)
    as (tr4 & s4 & Hr4 & Hf4 & Ho4 & Hw4 & EW4 & Hfr4).
  exists (tr1 ++ tr2 ++ tr3 ++ tr4), s4.
  split; [|split; [|split; [|split; [|split; [|split]]]]].
  - eapply run_seq; [exact Hr1|]. eapply run_seq; [exact Hr2|].
    eapply run_seq; [exact Hr3 | exact Hr4].
  - congruence.
  - exact Ho4.
  - rewrite Hw4, Hw3, Hw2, Hw1. reflexivity.
  - exact EW4.
  - rewrite (Hfr4 S HSW). exact ES3.
  - intros u HuW HuS.
    now rewrite (Hfr4 u HuW), (Hfr3 u HuS), (Hfr2 u HuS), (Hfr1 u HuW).
Qed.

Lemma monitor_threadB_code (hamlet : text) :
  monitor_threadB hamlet
  = Lock :: WaitLoop :: after_wait MonitorDemo hamlet ++ [Unlock].
Proof.
  unfold monitor_threadB. cbn [after_wait app]. now rewrite <- app_assoc.
Qed.

(** The code of the waiter once both threads exist, and the code of the
    signaller: plain code, the assignment, the notification. *)
Lemma demo_waiter_code (d : demo) (rock hamlet : text) (s : state) :
  pool s Main = Some (Ready, demo_rest d rock hamlet) ->
  pool s TB = Some (Ready, demo_prog d rock hamlet TB) ->
  pool s (waiter d)
  = Some (Ready, Lock :: WaitLoop :: after_wait d hamlet ++ [Unlock]).
Proof.
  intros EM EB. destruct d; cbn [waiter demo_rest demo_prog] in *.
  - exact EM.
  - now rewrite EB, monitor_threadB_code.
Qed.

Lemma demo_signaller_code (d : demo) (rock hamlet : text) :
  exists p,
    Forall plain p
    /\ demo_prog d rock hamlet (signaller d) = p ++ [SetFlag true; NotifyAll]
    /\ chars p = chars (demo_prog d rock hamlet (signaller d)).
Proof.
  destruct d; cbn [signaller demo_prog].
  - exists (cout hamlet_banner ++ displayTextSlowly hamlet TEXT_DELAY).
    split; [|split].
    + apply Forall_app. split; [apply plain_cout | apply plain_display].
    + unfold race_threadB. now rewrite app_assoc.
    + unfold race_threadB. rewrite !chars_app. simpl. now rewrite app_nil_r.
  - exists (cout rock_banner ++ displayTextSlowly rock TEXT_DELAY
            ++ [Putchar nl]).
    split; [|split].
    + apply Forall_app. split; [apply plain_cout|].
      apply Forall_app. split; [apply plain_display | repeat constructor].
    + unfold monitor_threadA. now rewrite <- !app_assoc.
    + unfold monitor_threadA. rewrite !chars_app. reflexivity.
Qed.

(** X10.  In both demos, for all texts, some execution loses the wakeup: the
    signaller sets the flag and notifies between the waiter's test of the
    flag and its blocking.  The waiter is then blocked although the flag
    is true and the signaller has run to its end, and in every continuation
    without a spurious wakeup of the waiter it stays blocked and writes
    nothing more: [raceTest] does not return, the second thread of
    [monitorTest] never writes its text. *)
Theorem wakeup_can_be_lost (d : demo) (rock hamlet : text) :
  exists sched tr s,
    run sched (demo_start d rock hamlet) = Some (tr, s)
    /\ flag s = true
    /\ pool s (signaller d) = Some (Ready, [])
    /\ pool s (waiter d)
       = Some (Blocked, WaitLoop :: after_wait d hamlet ++ [Unlock])
    /\ forall sched' tr' s',
         no_spurious (waiter d) sched' ->
         run sched' s = Some (tr', s') ->
         pool s' (waiter d)
         = Some (Blocked, WaitLoop :: after_wait d hamlet ++ [Unlock])
         /\ written_by (waiter d) (out s') = written_by (waiter d) (out s).
Proof.
  destruct (demo_spawned d rock hamlet)
    as (tr0 & s0 & Hr0 & Hf0 & Ho0 & Hw0 & EM & EA & EB).
  destruct (demo_roles d) as (H1 & H2 & H3 & H4).
  destruct (demo_signaller_code d rock hamlet) as (p & Hp & Ecode & _).
  pose proof (demo_waiter_code d rock hamlet s0 EM EB) as EW.
  assert (ES : pool s0 (signaller d)
               = Some (Ready, p ++ [SetFlag true; NotifyAll])).
  { rewrite <- Ecode. destruct d; assumption. }
  assert (Hnb : forall u c', u <> waiter d -> pool s0 u <> Some (Blocked, c')).
  { intros u c' _. destruct u; rewrite ?EM, ?EA, ?EB; discriminate. }
  destruct (lose_wakeup (waiter d) (signaller d) s0 _ p Ready Ready
              H1 Hp Hf0 Ho0 EW ES Hnb)
    as (tr1 & s1 & Hr1 & Hf1 & Ho1 & Hw1 & EW1 & ES1 & _).
  pose proof (run_seq _ _ _ _ _ _ _ Hr0 Hr1) as Hrun.
  eexists. exists (tr0 ++ tr1), s1.
  split; [exact Hrun|]. split; [exact Hf1|]. split; [exact ES1|].
  split; [exact EW1|].
  intros sched' tr' s' Hns Hr'.
  pose proof (demo_inv d _ _ _ _ _ Hrun) as Hinv.
  destruct (blocked_run (demo_prog d rock hamlet) (waiter d) (signaller d)
              (bystander d) (after_wait d hamlet) H1 H2 H3 H4
              (after_wait_plain d hamlet) sched' s1 tr' s' _
              Hinv EW1 (ex_intro _ Ready ES1) Hns Hr')
    as (EW' & HoW & _).
  auto.
Qed.

(** ** What [raceTest] leaves open *)

Lemma race_threadB_code (hamlet : text) :
  race_threadB hamlet
  = (cout hamlet_banner ++ displayTextSlowly hamlet TEXT_DELAY)
    ++ [SetFlag true; NotifyAll].
Proof. unfold race_threadB. now rewrite app_assoc. Qed.

Lemma plain_race_threadA (rock : text) : Forall plain (race_threadA rock).
Proof.
  apply Forall_app. split; [apply plain_cout | apply plain_display].
Qed.

Lemma plain_race_threadB_text (hamlet : text) :
  Forall plain (cout hamlet_banner ++ displayTextSlowly hamlet TEXT_DELAY).
Proof.
  apply Forall_app. split; [apply plain_cout | apply plain_display].
Qed.

Lemma chars_race_threadB_text (hamlet : text) :
  chars (cout hamlet_banner ++ displayTextSlowly hamlet TEXT_DELAY)
  = hamlet_banner ++ hamlet.
Proof. now rewrite chars_app, chars_cout, chars_display. Qed.

Lemma out_but_main_banner (b : text) (o : list (tid * ascii)) :
  out_but Main (map (pair Main) b ++ o) = out_but Main o.
Proof. now rewrite out_but_app, out_but_same. Qed.

(** X11.  [raceTest] fixes no order between its two threads: for all texts
    there is an execution in which the first thread writes its banner and
    text before the second thread writes anything, and another in which
    the second thread writes its banner and text first; the two outputs
    differ. *)
Theorem race_both_orders (rock hamlet : text) :
  exists sched1 tr1 s1 sched2 tr2 s2,
    run sched1 (demo_start RaceDemo rock hamlet) = Some (tr1, s1)
    /\ run sched2 (demo_start RaceDemo rock hamlet) = Some (tr2, s2)
    /\ out_but Main (out s1)
       = map (pair TA) (rock_banner ++ rock)
         ++ map (pair TB) (hamlet_banner ++ hamlet)
    /\ out_but Main (out s2)
       = map (pair TB) (hamlet_banner ++ hamlet)
         ++ map (pair TA) (rock_banner ++ rock)
    /\ out s1 <> out s2.
Proof.
  destruct (demo_spawned RaceDemo rock hamlet)
    as (tr0 & s0 & Hr0 & Hf0 & Ho0 & Hw0 & EM & EA & EB).
  cbn [demo_prog] in EA, EB. rewrite race_threadB_code in EB.
  (* first thread, then second *)
  assert (EA' : pool s0 TA = Some (Ready, race_threadA rock ++ []))
    by (now rewrite app_nil_r).
  destruct (run_plain_out TA _ (plain_race_threadA rock) s0 _ _ EA')
    as (ta & sa & wa & Hra & _ & _ & Hwa & _ & _ & Hfra).
  assert (EBa : pool sa TB
                = Some (Ready,
                        (cout hamlet_banner ++ displayTextSlowly hamlet TEXT_DELAY)
                        ++ [SetFlag true; NotifyAll]))
    by (rewrite (Hfra TB ltac:(discriminate)); exact EB).
  destruct (run_plain_out TB _ (plain_race_threadB_text hamlet) sa _ _ EBa)
    as (tab & sab & wab & Hrab & _ & _ & Hwab & _ & _ & _).
  (* second thread, then first *)
  destruct (run_plain_out TB _ (plain_race_threadB_text hamlet) s0 _ _ EB)
    as (tb & sb & wb & Hrb & _ & _ & Hwb & _ & _ & Hfrb).
  assert (EAb : pool sb TA = Some (Ready, race_threadA rock ++ []))
    by (rewrite (Hfrb TA ltac:(discriminate)); exact EA').
  destruct (run_plain_out TA _ (plain_race_threadA rock) sb _ _ EAb)
    as (tba & sba & wba & Hrba & _ & _ & Hwba & _ & _ & _).
  rewrite chars_race_threadA in Hwa, Hwba.
  rewrite chars_race_threadB_text in Hwab, Hwb.
  assert (E1 : out sab = map (pair Main) (demo_banner RaceDemo)
                         ++ map (pair TA) (rock_banner ++ rock)
                         ++ map (pair TB) (hamlet_banner ++ hamlet))
    by (rewrite Hwab, Hwa, Hw0, <- !app_assoc; reflexivity).
  assert (E2 : out sba = map (pair Main) (demo_banner RaceDemo)
                         ++ map (pair TB) (hamlet_banner ++ hamlet)
                         ++ map (pair TA) (rock_banner ++ rock))
    by (rewrite Hwba, Hwb, Hw0, <- !app_assoc; reflexivity).
  eexists. exists (tr0 ++ ta ++ tab), sab.
  eexists. exists (tr0 ++ tb ++ tba), sba.
  split; [eapply run_seq; [exact Hr0|]; eapply run_seq; eassumption|].
  split; [eapply run_seq; [exact Hr0|]; eapply run_seq; eassumption|].
  split; [|split].
  - rewrite E1, out_but_main_banner, out_but_app.
    now rewrite !out_but_other by discriminate.
  - rewrite E2, out_but_main_banner, out_but_app.
    now rewrite !out_but_other by discriminate.
  - rewrite E1, E2. intros E. apply app_inv_head in E.
    unfold rock_banner, hamlet_banner, line_lit in E. simpl in E.
    discriminate E.
Qed.

(** X12.  [raceTest] waits for its second thread only: for all texts there
    is an execution in which it has written its last newline, released the
    mutex and returned while its first thread has not written a single
    character and still has its banner and the whole first text to
    write. *)
Theorem raceTest_can_return_before_first_thread (rock hamlet : text) :
  exists sched tr s,
    run sched (demo_start RaceDemo rock hamlet) = Some (tr, s)
    /\ pool s Main = Some (Ready, [])
    /\ owner s = None
    /\ pool s TA = Some (Ready, race_threadA rock)
    /\ written_by TA (out s) = []
    /\ out s = map (pair Main) (demo_banner RaceDemo)
               ++ map (pair TB) (hamlet_banner ++ hamlet)
               ++ [(Main, nl)].
Proof.
  destruct (demo_spawned RaceDemo rock hamlet)
    as (tr0 & s0 & Hr0 & Hf0 & Ho0 & Hw0 & EM & EA & EB).
  cbn [demo_prog demo_rest] in EM, EA, EB. rewrite race_threadB_code in EB.
  (* the second thread runs to its end *)
  destruct (run_plain_out TB _ (plain_race_threadB_text hamlet) s0 _ _ EB)
    as (t1 & s1 & w1 & Hr1 & Hf1 & Ho1 & Hw1 & EB1 & Hws1 & Hfr1).
  assert (Ew1 : w1 = Ready) by (destruct Hws1; assumption).
  subst w1.
  assert (Hnb1 : forall u c', pool s1 u <> Some (Blocked, c')).
  { intros u c'. destruct u.
    - rewrite (Hfr1 Main ltac:(discriminate)), EM. discriminate.
    - rewrite (Hfr1 TA ltac:(discriminate)), EA. discriminate.
    - rewrite EB1. discriminate. }
  destruct (run_set_notify TB s1 Ready true [] EB1 Hnb1)
    as (t2 & s2 & Hr2 & Hf2 & Ho2 & Hw2 & EB2 & Hfr2).
  (* the orchestrating thread locks, passes its loop, sleeps, writes the
     newline and unlocks *)
  assert (EM2 : pool s2 Main
                = Some (Ready, Lock :: WaitLoop
                               :: after_wait RaceDemo hamlet ++ [Unlock])).
  { rewrite (Hfr2 Main ltac:(discriminate)), (Hfr1 Main ltac:(discriminate)).
    exact EM. }
  destruct (run_lock_pass Main s2 Ready _ EM2 ltac:(congruence) Hf2)
    as (t3 & s3 & Hr3 & Hf3 & Ho3 & Hw3 & EM3 & Hfr3).
  destruct (run_plain_out Main _ (after_wait_plain RaceDemo hamlet) s3 _ _ EM3)
    as (t4 & s4 & w4 & Hr4 & Hf4 & Ho4 & Hw4 & EM4 & _ & Hfr4).
  destruct (run_unlock Main s4 w4 [] EM4 ltac:(congruence))
    as (t5 & s5 & Hr5 & Hf5 & Ho5 & Hw5 & EM5 & Hfr5).
  rewrite chars_race_threadB_text in Hw1.
  assert (E : out s5 = map (pair Main) (demo_banner RaceDemo)
                       ++ map (pair TB) (hamlet_banner ++ hamlet)
                       ++ [(Main, nl)]).
  { rewrite Hw5, Hw4, Hw3, Hw2, Hw1, Hw0, <- !app_assoc. reflexivity. }
  eexists. exists (tr0 ++ t1 ++ t2 ++ t3 ++ t4 ++ t5), s5.
  split.
  { eapply run_seq; [exact Hr0|]. eapply run_seq; [exact Hr1|].
    eapply run_seq; [exact Hr2|]. eapply run_seq; [exact Hr3|].
    eapply run_seq; [exact Hr4 | exact Hr5]. }
  split; [exact EM5|]. split; [exact Ho5|]. split; [|split; [|exact E]].
  - rewrite (Hfr5 TA ltac:(discriminate)), (Hfr4 TA ltac:(discriminate)),
      (Hfr3 TA ltac:(discriminate)), (Hfr2 TA ltac:(discriminate)),
      (Hfr1 TA ltac:(discriminate)).
    exact EA.
  - rewrite E, !written_by_app.
    rewrite !written_by_other by discriminate. reflexivity.
Qed.

(** ** The complete output of [monitorTest] *)

Lemma chars_singleThreadTest (rock hamlet : text) :
  chars (singleThreadTest rock hamlet)
  = line_lit "Displaying texts in single thread:"
    ++ (rock_banner ++ rock ++ [nl] ++ hamlet_banner ++ hamlet)
    ++ [nl; nl].
Proof.
  unfold singleThreadTest. rewrite !chars_app, !chars_cout.
  now rewrite <- !app_assoc.
Qed.

(** X13.  In every execution of [monitorTest] in which the second thread
    has run to its end, the two threads together have written the first
    banner, the first text, a newline, the second banner and the second
    text, in this order and with nothing in between: what
    [singleThreadTest] writes between its first line and its last two
    newlines. *)
Theorem monitor_finished_output (rock hamlet : text) (sched : list choice)
        (tr : list (tid * label)) (s : state) (ws : wstate)
        (Hrun : run sched (demo_start MonitorDemo rock hamlet) = Some (tr, s))
        (Hdone : pool s TB = Some (ws, [])) :
  map snd (out_but Main (out s))
  = rock_banner ++ rock ++ [nl] ++ hamlet_banner ++ hamlet
  /\ chars (singleThreadTest rock hamlet)
     = line_lit "Displaying texts in single thread:"
       ++ map snd (out_but Main (out s)) ++ [nl; nl].
Proof.
  pose proof (demo_inv MonitorDemo _ _ _ _ _ Hrun) as Hinv.
  cbn [waiter signaller bystander] in Hinv.
  pose proof (ordered_run rock hamlet sched _ _ _
                (demo_inv_start MonitorDemo rock hamlet)
                (ordered_start rock hamlet) Hrun) as (la & lb & Ho & Ha & Hb).
  rewrite (thr_of_some _ _ _ _ Hdone) in Hb. cbn [snd chars flat_map] in Hb.
  rewrite app_nil_r, chars_monitor_threadB in Hb. subst lb.
  assert (Hf : flag s = true).
  { destruct (flag s) eqn:Hf; [reflexivity|].
    assert (E : hamlet_banner ++ hamlet = []).
    { eapply nothing_before_flag; [exact Hinv | | exact Hf].
      rewrite (thr_of_some _ _ _ _ Hdone). cbn [snd chars flat_map].
      now rewrite app_nil_r, chars_monitor_threadB. }
    discriminate E. }
  assert (Hra : chars (snd (thr_of (demo_prog MonitorDemo rock hamlet)
                              (pool s) TA)) = []).
  { destruct Hinv as (HS & _).
    inversion HS as [p Hp Hf' Hc | Hf' Hc | Hf' Hc]; try congruence;
      reflexivity. }
  rewrite Hra, app_nil_r, chars_monitor_threadA in Ha. subst la.
  assert (E : map snd (out_but Main (out s))
              = rock_banner ++ rock ++ [nl] ++ hamlet_banner ++ hamlet).
  { rewrite Ho, map_app, !map_map. cbn [snd]. rewrite !map_id.
    now rewrite <- !app_assoc. }
  split; [exact E|].
  now rewrite E, chars_singleThreadTest.
Qed.

Lemma monitor_finished_output_witness :
  map snd (out_but Main (out (final_state sched_in_turn demo_AB_CD)))
  = rock_banner ++ txt "AB" ++ [nl] ++ hamlet_banner ++ txt "CD"
  /\ chars (singleThreadTest (txt "AB") (txt "CD"))
     = line_lit "Displaying texts in single thread:"
       ++ map snd (out_but Main (out (final_state sched_in_turn demo_AB_CD)))
       ++ [nl; nl].
Proof.
  apply (monitor_finished_output (txt "AB") (txt "CD") sched_in_turn
           (trace_of sched_in_turn demo_AB_CD)
           (final_state sched_in_turn demo_AB_CD) Ready).
  - vm_compute. reflexivity.
  - vm_compute. reflexivity.
Defined.

Lemma monitor_threadA_code (rock : text) :
  monitor_threadA rock
  = (cout rock_banner ++ displayTextSlowly rock TEXT_DELAY ++ [Putchar nl])
    ++ [SetFlag true; NotifyAll].
Proof. unfold monitor_threadA. now rewrite <- !app_assoc. Qed.

Lemma plain_monitor_threadA_text (rock : text) :
  Forall plain (cout rock_banner ++ displayTextSlowly rock TEXT_DELAY
                ++ [Putchar nl]).
Proof.
  apply Forall_app. split; [apply plain_cout|].
  apply Forall_app. split; [apply plain_display | repeat constructor].
Qed.

(** X14.  For all texts [monitorTest] can run to completion: there is an
    execution after which all three threads have run to their end, the
    flag is true, the mutex is free, and the output is the demo banner,
    the first banner, text and newline, the second banner and text, and
    the last newline. *)
Theorem monitorTest_can_complete (rock hamlet : text) :
  exists sched tr s,
    run sched (demo_start MonitorDemo rock hamlet) = Some (tr, s)
    /\ (exists ws, pool s Main = Some (ws, []))
    /\ pool s TA = Some (Ready, [])
    /\ pool s TB = Some (Ready, [])
    /\ flag s = true /\ owner s = None
    /\ out s = map (pair Main) (demo_banner MonitorDemo)
               ++ map (pair TA) (rock_banner ++ rock ++ [nl])
               ++ map (pair TB) (hamlet_banner ++ hamlet)
               ++ [(Main, nl)].
Proof.
  destruct (demo_spawned MonitorDemo rock hamlet)
    as (tr0 & s0 & Hr0 & Hf0 & Ho0 & Hw0 & EM & EA & EB).
  cbn [demo_prog demo_rest] in EM, EA, EB.
  rewrite monitor_threadA_code in EA. rewrite monitor_threadB_code in EB.
  (* the first thread *)
  destruct (run_plain_out TA _ (plain_monitor_threadA_text rock) s0 _ _ EA)
    as (t1 & s1 & w1 & Hr1 & Hf1 & Ho1 & Hw1 & EA1 & Hws1 & Hfr1).
  assert (Ew1 : w1 = Ready) by (destruct Hws1; assumption). subst w1.
  assert (Hnb1 : forall u c', pool s1 u <> Some (Blocked, c')).
  { intros u c'. destruct u.
    - rewrite (Hfr1 Main ltac:(discriminate)), EM. discriminate.
    - rewrite EA1. discriminate.
    - rewrite (Hfr1 TB ltac:(discriminate)), EB. discriminate. }
  destruct (run_set_notify TA s1 Ready true [] EA1 Hnb1)
    as (t2 & s2 & Hr2 & Hf2 & Ho2 & Hw2 & EA2 & Hfr2).
  (* the second thread *)
  assert (EB2 : pool s2 TB
                = Some (Ready, Lock :: WaitLoop
                               :: after_wait MonitorDemo hamlet ++ [Unlock])).
  { rewrite (Hfr2 TB ltac:(discriminate)), (Hfr1 TB ltac:(discriminate)).
    exact EB. }
  destruct (run_lock_pass TB s2 Ready _ EB2 ltac:(congruence) Hf2)
    as (t3 & s3 & Hr3 & Hf3 & Ho3 & Hw3 & EB3 & Hfr3).
  destruct (run_plain_out TB _ (after_wait_plain MonitorDemo hamlet) s3 _ _ EB3)
    as (t4 & s4 & w4 & Hr4 & Hf4 & Ho4 & Hw4 & EB4 & _ & Hfr4).
  destruct (run_unlock TB s4 w4 [] EB4 ltac:(congruence))
    as (t5 & s5 & Hr5 & Hf5 & Ho5 & Hw5 & EB5 & Hfr5).
  (* the orchestrating thread *)
  assert (EM5 : pool s5 Main
                = Some (Ready, (SleepFor (monitor_wait rock hamlet)
                                :: cout [nl]) ++ [])).
  { rewrite (Hfr5 Main ltac:(discriminate)), (Hfr4 Main ltac:(discriminate)),
      (Hfr3 Main ltac:(discriminate)), (Hfr2 Main ltac:(discriminate)),
      (Hfr1 Main ltac:(discriminate)), app_nil_r.
    exact EM. }
  assert (Hpm : Forall plain (SleepFor (monitor_wait rock hamlet) :: cout [nl]))
    by (repeat constructor).
  destruct (run_plain_out Main _ Hpm s5 _ _ EM5)
    as (t6 & s6 & w6 & Hr6 & Hf6 & Ho6 & Hw6 & EM6 & _ & Hfr6).
  assert (Hc1 : chars (cout rock_banner ++ displayTextSlowly rock TEXT_DELAY
                       ++ [Putchar nl]) = rock_banner ++ rock ++ [nl])
    by (now rewrite !chars_app, chars_cout, chars_display).
  assert (Hc4 : chars (after_wait MonitorDemo hamlet) = hamlet_banner ++ hamlet)
    by (cbn [after_wait]; now rewrite chars_app, chars_cout, chars_display).
  rewrite Hc1 in Hw1. rewrite Hc4 in Hw4.
  eexists. exists (tr0 ++ t1 ++ t2 ++ t3 ++ t4 ++ t5 ++ t6), s6.
  split.
  { eapply run_seq; [exact Hr0|]. eapply run_seq; [exact Hr1|].
    eapply run_seq; [exact Hr2|]. eapply run_seq; [exact Hr3|].
    eapply run_seq; [exact Hr4|]. eapply run_seq; [exact Hr5 | exact Hr6]. }
  split; [now exists w6|].
  split.
  { rewrite (Hfr6 TA ltac:(discriminate)), (Hfr5 TA ltac:(discriminate)),
      (Hfr4 TA ltac:(discriminate)), (Hfr3 TA ltac:(discriminate)).
    exact EA2. }
  split; [rewrite (Hfr6 TB ltac:(discriminate)); exact EB5|].
  split; [congruence|]. split; [congruence|].
  rewrite Hw6, Hw5, Hw4, Hw3, Hw2, Hw1, Hw0, <- !app_assoc. reflexivity.
Qed.

(** X15.  Only its sleep keeps [monitorTest] from returning early: it waits
    on nothing, so for all texts there is an execution in which the
    orchestrating thread has slept, written its last newline and returned
    while neither of its threads has written a character. *)
Theorem monitorTest_can_return_early (rock hamlet : text) :
  exists sched tr s,
    run sched (demo_start MonitorDemo rock hamlet) = Some (tr, s)
    /\ (exists ws, pool s Main = Some (ws, []))
    /\ pool s TA = Some (Ready, monitor_threadA rock)
    /\ pool s TB = Some (Ready, monitor_threadB hamlet)
    /\ flag s = false
    /\ out s = map (pair Main) (demo_banner MonitorDemo) ++ [(Main, nl)].
Proof.
  destruct (demo_spawned MonitorDemo rock hamlet)
    as (tr0 & s0 & Hr0 & Hf0 & Ho0 & Hw0 & EM & EA & EB).
  cbn [demo_prog demo_rest] in EM, EA, EB.
  assert (EM0 : pool s0 Main
                = Some (Ready, (SleepFor (monitor_wait rock hamlet)
                                :: cout [nl]) ++ []))
    by (now rewrite app_nil_r).
  assert (Hpm : Forall plain (SleepFor (monitor_wait rock hamlet) :: cout [nl]))
    by (repeat constructor).
  destruct (run_plain_out Main _ Hpm s0 _ _ EM0)
    as (t1 & s1 & w1 & Hr1 & Hf1 & Ho1 & Hw1 & EM1 & _ & Hfr1).
  eexists. exists (tr0 ++ t1), s1.
  split; [eapply run_seq; eassumption|].
  split; [now exists w1|].
  split; [rewrite (Hfr1 TA ltac:(discriminate)); exact EA|].
  split; [rewrite (Hfr1 TB ltac:(discriminate)); exact EB|].
  split; [congruence|].
  rewrite Hw1, Hw0. reflexivity.
Qed.

